(** * ForeignFifoBuffer: a FIFO view over borrowed memory

    A shallow embedding of [src/util/ForeignFifoBuffer.hxx] and the
    verification of its cursor bookkeeping, its compaction ([Shift]) and
    its full/empty boundary conditions.

    Modelling choices, all read off the C++ source:
    - [size_type] is [size_t]: an unsigned integer of [size_bits] bits.  A
      value is a [Z]; every addition and subtraction of the source is
      followed by an explicit reduction modulo [2 ^ size_bits].
    - [T *] is an address.  Addresses count elements of [T], so [p + i] is
      plain addition on [Z]; [nullptr] is address [0].
    - The backing block is not owned by the view: it lives in a memory
      [mem T] that is shared with the caller and threaded through every
      method that touches elements.
    - [assert] is modelled as it behaves in a checked build: a method whose
      assertion fails returns [None].
    - [std::move (first, last, d_first)] and [std::copy_n] are the forward
      element-by-element loops of <algorithm>.  [std::copy_n] copies.
      [std::move] move-assigns: the destination receives the value and the
      source element is left in its moved-from state, which the element
      type decides ([moved_from]); the template puts no constraint on
      [T], so nothing is assumed about that state. *)

From Stdlib Require Import ZArith Lia List Bool ZifyBool.
From stdpp Require Import base tactics option functions list numbers.
Import ListNotations.

Local Open Scope Z_scope.

(** ** [size_t] *)

(** The width of [size_t] is fixed by the platform, not by the source. *)
Class SizeT := { size_bits : positive }.

Definition size_mod `{SizeT} : Z := 2 ^ Z.pos size_bits.

Definition SIZE_MAX `{SizeT} : Z := size_mod - 1.

(** Reduction of an integer to its [size_t] value. *)
Definition wrap `{SizeT} (z : Z) : Z := z mod size_mod.

(** [a + b] and [a - b] on [size_type]. *)
Definition size_add `{SizeT} (a b : Z) : Z := wrap (a + b).

Definition size_sub `{SizeT} (a b : Z) : Z := wrap (a - b).

(** The values a [size_type] variable can hold. *)
Definition is_size `{SizeT} (z : Z) : Prop := 0 <= z <= SIZE_MAX.

(** ** Pointers and memory *)

Definition pointer : Type := Z.

Definition nullptr : pointer := 0.

(** Memory seen as an array of [T] indexed by address. *)
Definition mem (T : Type) : Type := pointer -> T.

(** The loop of [std::copy_n]:
    [while (n--) *d_first++ = *first++;] *)
Fixpoint copy_loop {T : Type} (n : nat) (first d_first : pointer) (m : mem T) : mem T :=
  match n with
  | O => m
  | S k => copy_loop k (first + 1) (d_first + 1) (<[d_first := m first]> m)
  end.

(** What a move leaves behind: [moved_from x] is the state of an element
    that held [x] after it was moved from.  It is the identity for a
    trivially copyable [T], the empty string for [std::string], the null
    handle for [std::unique_ptr]. *)
Class Movable (T : Type) := { moved_from : T -> T }.

(** The loop of [std::move]:
    [for (; n > 0; --n, ++first, ++d_first) d_first[0] = std::move (first[0]);]
    When both iterators name one cell the assignment is a self-move and
    the cell keeps the value it receives. *)
Fixpoint move_loop {T : Type} `{Movable T} (n : nat) (first d_first : pointer)
    (m : mem T) : mem T :=
  match n with
  | O => m
  | S k =>
      move_loop k (first + 1) (d_first + 1)
        (<[d_first := m first]> (<[first := moved_from (m first)]> m))
  end.

(** [std::move (first, last, d_first)]; requires [first <= last]. *)
Definition std_move {T : Type} `{Movable T} (first last d_first : pointer)
    (m : mem T) : mem T :=
  move_loop (Z.to_nat (last - first)) first d_first m.

(** [std::copy_n (first, n, d_first)]. *)
Definition std_copy_n {T : Type} (first : pointer) (n : Z) (d_first : pointer) (m : mem T) : mem T :=
  copy_loop (Z.to_nat n) first d_first m.

(** The [n] elements stored from address [p] on, in address order. *)
Fixpoint load_range {T : Type} (m : mem T) (p : pointer) (n : nat) : list T :=
  match n with
  | O => []
  | S k => m p :: load_range m (p + 1) k
  end.

(** What a caller does with a writable span: store [xs] from [p] on. *)
Fixpoint store_list {T : Type} (p : pointer) (xs : list T) (m : mem T) : mem T :=
  match xs with
  | [] => m
  | x :: xs' => store_list (p + 1) xs' (<[p := x]> m)
  end.

(** ** [WritableBuffer<T>] *)

Module WritableBuffer.

(** Modelled from the spec: [WritableBuffer.hxx] is not among the sources.
    The spec describes the range as a pair of a pointer-like handle and a
    length; the two members are the ones [ForeignFifoBuffer::Read] uses
    ([range.data], [range.size]). *)
Record t : Type := Range { data : pointer; size : Z }.

End WritableBuffer.

Abbreviation Range := WritableBuffer.Range.

(** ** The class [ForeignFifoBuffer<T>] *)

Record ForeignFifoBuffer : Type := mkFifo {
  head : Z;
  tail : Z;
  capacity : Z;
  data : pointer
}.

Definition set_head (v : Z) (b : ForeignFifoBuffer) : ForeignFifoBuffer :=
  mkFifo v (tail b) (capacity b) (data b).

Definition set_tail (v : Z) (b : ForeignFifoBuffer) : ForeignFifoBuffer :=
  mkFifo (head b) v (capacity b) (data b).

Definition set_capacity (v : Z) (b : ForeignFifoBuffer) : ForeignFifoBuffer :=
  mkFifo (head b) (tail b) v (data b).

Definition set_data (p : pointer) (b : ForeignFifoBuffer) : ForeignFifoBuffer :=
  mkFifo (head b) (tail b) (capacity b) p.

(** [assert (c)] in a checked build. *)
Definition assert (c : bool) : option unit := if c then Some tt else None.

Section Methods.
Context `{SizeT} {T : Type} `{Movable T}.

(** [explicit constexpr ForeignFifoBuffer(std::nullptr_t n)] *)
Definition ForeignFifoBuffer_null : ForeignFifoBuffer :=
  mkFifo 0 0 0 nullptr.

(** [constexpr ForeignFifoBuffer(T *_data, size_type _capacity)] *)
Definition ForeignFifoBuffer_new (_data : pointer) (_capacity : Z) : ForeignFifoBuffer :=
  mkFifo 0 0 _capacity _data.

Definition IsNull (b : ForeignFifoBuffer) : bool := data b =? nullptr.

Definition IsDefined (b : ForeignFifoBuffer) : bool := negb (IsNull b).

Definition GetBuffer (b : ForeignFifoBuffer) : pointer := data b.

Definition GetCapacity (b : ForeignFifoBuffer) : Z := capacity b.

Definition SetNull (b : ForeignFifoBuffer) : ForeignFifoBuffer :=
  let b := set_tail 0 b in
  let b := set_head 0 b in
  let b := set_capacity 0 b in
  set_data nullptr b.

(** [ForeignFifoBuffer(ForeignFifoBuffer &&src)]: the new object and what is
    left of [src]. *)
Definition move_construct (src : ForeignFifoBuffer) : ForeignFifoBuffer * ForeignFifoBuffer :=
  (mkFifo (head src) (tail src) (capacity src) (data src), SetNull src).

Definition SetBuffer (_data : pointer) (_capacity : Z) (b : ForeignFifoBuffer)
  : option ForeignFifoBuffer :=
  _ ← assert (negb (_data =? nullptr));
  _ ← assert (_capacity >? 0);
  let b := set_tail 0 b in
  let b := set_head 0 b in
  let b := set_capacity _capacity b in
  Some (set_data _data b).

Definition MoveBuffer (new_data : pointer) (new_capacity : Z)
    (b : ForeignFifoBuffer) (m : mem T) : option (ForeignFifoBuffer * mem T) :=
  _ ← assert (new_capacity >=? size_sub (tail b) (head b));
  let m := std_move (data b + head b) (data b + tail b) new_data m in
  let b := set_data new_data b in
  let b := set_capacity new_capacity b in
  let b := set_tail (size_sub (tail b) (head b)) b in
  let b := set_head 0 b in
  Some (b, m).

Definition Clear (b : ForeignFifoBuffer) : ForeignFifoBuffer :=
  set_head 0 (set_tail 0 b).

Definition IsEmpty (b : ForeignFifoBuffer) : bool := head b =? tail b.

Definition IsFull (b : ForeignFifoBuffer) : bool :=
  (head b =? 0) && (tail b =? capacity b).

Definition Shift (b : ForeignFifoBuffer) (m : mem T) : option (ForeignFifoBuffer * mem T) :=
  if head b =? 0 then Some (b, m)
  else
    _ ← assert (head b <=? capacity b);
    _ ← assert (tail b <=? capacity b);
    _ ← assert (tail b >=? head b);
    let m := std_move (data b + head b) (data b + tail b) (data b) m in
    let b := set_tail (size_sub (tail b) (head b)) b in
    let b := set_head 0 b in
    Some (b, m).

(** [Range Write()]: the view, the memory and the returned range. *)
Definition Write (b : ForeignFifoBuffer) (m : mem T)
  : option (ForeignFifoBuffer * mem T * WritableBuffer.t) :=
  '(b, m) ← Shift b m;
  Some (b, m, Range (data b + tail b) (size_sub (capacity b) (tail b))).

Definition WantWrite (n : Z) (b : ForeignFifoBuffer) (m : mem T)
  : option (ForeignFifoBuffer * mem T * bool) :=
  if size_add (tail b) n <=? capacity b then Some (b, m, true)
  else
    let in_use := size_sub (tail b) (head b) in
    let required_capacity := size_add in_use n in
    if required_capacity >? capacity b then Some (b, m, false)
    else
      '(b, m) ← Shift b m;
      _ ← assert (size_add (tail b) n <=? capacity b);
      Some (b, m, true).

Definition Append (n : Z) (b : ForeignFifoBuffer) : option ForeignFifoBuffer :=
  _ ← assert (tail b <=? capacity b);
  _ ← assert (n <=? capacity b);
  _ ← assert (size_add (tail b) n <=? capacity b);
  Some (set_tail (size_add (tail b) n) b).

Definition GetAvailable (b : ForeignFifoBuffer) : Z := size_sub (tail b) (head b).

(** [constexpr Range Read() const] *)
Definition Read (b : ForeignFifoBuffer) : WritableBuffer.t :=
  Range (data b + head b) (size_sub (tail b) (head b)).

Definition Consume (n : Z) (b : ForeignFifoBuffer) : option ForeignFifoBuffer :=
  _ ← assert (tail b <=? capacity b);
  _ ← assert (head b <=? tail b);
  _ ← assert (n <=? tail b);
  _ ← assert (size_add (head b) n <=? tail b);
  Some (set_head (size_add (head b) n) b).

(** [size_type Read(pointer_type p, size_type n)] *)
Definition Read_n (p : pointer) (n : Z) (b : ForeignFifoBuffer) (m : mem T)
  : option (ForeignFifoBuffer * mem T * Z) :=
  let range := Read b in
  let n := if n >? WritableBuffer.size range then WritableBuffer.size range else n in
  let m := std_copy_n (WritableBuffer.data range) n p m in
  b ← Consume n b;
  Some (b, m, n).

(** The elements a range spans, as a caller reading through it sees them. *)
Definition contents (m : mem T) (r : WritableBuffer.t) : list T :=
  load_range m (WritableBuffer.data r) (Z.to_nat (WritableBuffer.size r)).

(** The live region: what [Read()] exposes. *)
Definition live (b : ForeignFifoBuffer) (m : mem T) : list T :=
  contents m (Read b).

End Methods.

(** ** Objects and move assignment *)

(** [operator=] takes its source by reference, and nothing stops both
    references from naming one object.  Objects therefore live in a store
    indexed by identity, and every member access goes through it. *)
Definition objects : Type := nat -> ForeignFifoBuffer.

(** [ForeignFifoBuffer &operator=(ForeignFifoBuffer &&src)] *)
Definition move_assign (this src : nat) (s : objects) : objects :=
  let s := <[this := set_head (head (s src)) (s this)]> s in
  let s := <[this := set_tail (tail (s src)) (s this)]> s in
  let s := <[this := set_capacity (capacity (s src)) (s this)]> s in
  let s := <[this := set_data (data (s src)) (s this)]> s in
  <[src := SetNull (s src)]> s.

(** ** Invariants *)

Section Invariants.
Context `{SizeT}.

(** Every member is a [size_type] value. *)
Definition wf (b : ForeignFifoBuffer) : Prop :=
  is_size (head b) /\ is_size (tail b) /\ is_size (capacity b).

(** [0 <= head <= tail <= capacity] *)
Definition cursor_inv (b : ForeignFifoBuffer) : Prop :=
  0 <= head b /\ head b <= tail b /\ tail b <= capacity b.

(** A view without a block has no capacity and no cursors. *)
Definition null_inv (b : ForeignFifoBuffer) : Prop :=
  data b = nullptr -> capacity b = 0 /\ head b = 0 /\ tail b = 0.

End Invariants.

(** ** The public interface as a language of calls *)

Inductive method : Type :=
  | mSetNull
  | mSetBuffer (_data : pointer) (_capacity : Z)
  | mMoveBuffer (new_data : pointer) (new_capacity : Z)
  | mClear
  | mWrite
  | mWantWrite (n : Z)
  | mAppend (n : Z)
  | mConsume (n : Z)
  | mRead_n (p : pointer) (n : Z)
  | mIsNull
  | mIsDefined
  | mGetBuffer
  | mGetCapacity
  | mIsEmpty
  | mIsFull
  | mGetAvailable
  | mRead.

Inductive result : Type :=
  | RVoid
  | RBool (v : bool)
  | RSize (v : Z)
  | RPointer (v : pointer)
  | RRange (v : WritableBuffer.t).

Section Calls.
Context `{SizeT} {T : Type} `{Movable T}.

Definition call (o : method) (b : ForeignFifoBuffer) (m : mem T)
  : option (ForeignFifoBuffer * mem T * result) :=
  match o with
  | mSetNull => Some (SetNull b, m, RVoid)
  | mSetBuffer d c => b ← SetBuffer d c b; Some (b, m, RVoid)
  | mMoveBuffer d c => '(b, m) ← MoveBuffer d c b m; Some (b, m, RVoid)
  | mClear => Some (Clear b, m, RVoid)
  | mWrite => '(b, m, r) ← Write b m; Some (b, m, RRange r)
  | mWantWrite n => '(b, m, r) ← WantWrite n b m; Some (b, m, RBool r)
  | mAppend n => b ← Append n b; Some (b, m, RVoid)
  | mConsume n => b ← Consume n b; Some (b, m, RVoid)
  | mRead_n p n => '(b, m, r) ← Read_n p n b m; Some (b, m, RSize r)
  | mIsNull => Some (b, m, RBool (IsNull b))
  | mIsDefined => Some (b, m, RBool (IsDefined b))
  | mGetBuffer => Some (b, m, RPointer (GetBuffer b))
  | mGetCapacity => Some (b, m, RSize (GetCapacity b))
  | mIsEmpty => Some (b, m, RBool (IsEmpty b))
  | mIsFull => Some (b, m, RBool (IsFull b))
  | mGetAvailable => Some (b, m, RSize (GetAvailable b))
  | mRead => Some (b, m, RRange (Read b))
  end.

(** What a caller owes each method: counts are [size_type] values, and the
    conditions the method asserts hold as statements about integers. *)
Definition method_pre (o : method) (b : ForeignFifoBuffer) : Prop :=
  match o with
  | mSetBuffer d c => is_size c /\ d <> nullptr /\ 0 < c
  | mMoveBuffer _ c => is_size c /\ tail b - head b <= c
  | mWantWrite n => is_size n
  | mAppend n => is_size n /\ tail b + n <= capacity b
  | mConsume n => is_size n /\ head b + n <= tail b
  | mRead_n _ n => is_size n
  | _ => True
  end.

(** The views a program can hold: built by a constructor, then changed by
    calls whose precondition held, by being moved from, or by being moved
    into.  The memory the block lives in is arbitrary at every call. *)
Inductive reachable : ForeignFifoBuffer -> Prop :=
  | reach_null : reachable ForeignFifoBuffer_null
  | reach_new d c : is_size c -> reachable (ForeignFifoBuffer_new d c)
  | reach_call o b m b' m' r :
      reachable b -> method_pre o b -> call o b m = Some (b', m', r) ->
      reachable b'
  | reach_move_construct src :
      reachable src -> reachable (fst (move_construct src))
  | reach_moved_from src :
      reachable src -> reachable (snd (move_construct src))
  | reach_move_assign (s : objects) this src x :
      (forall o, reachable (s o)) -> reachable (move_assign this src s x).

End Calls.

(** ** Producer/consumer traces on one binding *)

(** The calls of a producer and a consumer that share one view.  The
    producer asks for room with [WantWrite], takes a range with [Write],
    stores elements into the range it holds and commits them with
    [Append]; the consumer looks at what [Read()] exposes and drops it
    with [Consume], or has it copied out with [Read(p, n)]. *)
Inductive action (T : Type) : Type :=
  | aWantWrite (n : Z)
  | aWrite
  | aAppend (xs : list T)
  | aConsume (n : Z)
  | aRead_n (p : pointer) (n : Z).

Arguments aWantWrite {T} n.
Arguments aWrite {T}.
Arguments aAppend {T} xs.
Arguments aConsume {T} n.
Arguments aRead_n {T} p n.

Section Traces.
Context `{SizeT} {T : Type} `{Movable T}.

(** The part of a range that is left after [n] elements were stored at
    its start. *)
Definition range_rest (r : WritableBuffer.t) (n : Z) : WritableBuffer.t :=
  Range (WritableBuffer.data r + n) (WritableBuffer.size r - n).

(** One step, on the view, the memory and the range the producer holds
    ([held]), with the elements the consumer got to see:
    - [aWantWrite n]: [WantWrite(n)]; the block may have been shifted, so
      the producer lets go of the range it held;
    - [aWrite]: [r = Write()]; the producer now holds [r];
    - [aAppend xs]: store [xs] at the start of the range held, then
      [Append(|xs|)]; the producer keeps the rest of the range;
    - [aConsume n]: [r = Read()], look at the first [n] elements of [r],
      [Consume(n)];
    - [aRead_n p n]: [k = Read(p, n)], then look at [p[0..k)]. *)
Definition perform (a : action T) (b : ForeignFifoBuffer) (m : mem T)
    (held : option WritableBuffer.t)
  : option (ForeignFifoBuffer * mem T * option WritableBuffer.t * list T) :=
  match a with
  | aWantWrite n =>
      '(b, m, _) ← WantWrite n b m;
      Some (b, m, None, [])
  | aWrite =>
      '(b, m, r) ← Write b m;
      Some (b, m, Some r, [])
  | aAppend xs =>
      r ← held;
      let n := Z.of_nat (length xs) in
      let m := store_list (WritableBuffer.data r) xs m in
      b ← Append n b;
      Some (b, m, Some (range_rest r n), [])
  | aConsume n =>
      let seen := take (Z.to_nat n) (contents m (Read b)) in
      b ← Consume n b;
      Some (b, m, held, seen)
  | aRead_n p n =>
      '(b, m, k) ← Read_n p n b m;
      Some (b, m, held, load_range m p (Z.to_nat k))
  end.

(** The conditions of use: elements are stored into a range the producer
    holds and do not exceed it, a consume stays within the available
    count, and the destination of [Read(p, n)] lies outside the block the
    view is bound to. *)
Definition action_pre (a : action T) (b : ForeignFifoBuffer)
    (held : option WritableBuffer.t) : Prop :=
  match a with
  | aWantWrite n => is_size n
  | aWrite => True
  | aAppend xs =>
      match held with
      | Some r => Z.of_nat (length xs) <= WritableBuffer.size r
      | None => False
      end
  | aConsume n => 0 <= n <= GetAvailable b
  | aRead_n p n =>
      is_size n /\
      (p + Z.min n (GetAvailable b) <= data b \/ data b + capacity b <= p)
  end.

Fixpoint run (acts : list (action T)) (b : ForeignFifoBuffer) (m : mem T)
    (held : option WritableBuffer.t)
  : option (ForeignFifoBuffer * mem T * list T) :=
  match acts with
  | [] => Some (b, m, [])
  | a :: rest =>
      '(b, m, held, seen) ← perform a b m held;
      '(b, m, seen') ← run rest b m held;
      Some (b, m, seen ++ seen')
  end.

(** Every step of the trace is taken in a state where its condition of
    use holds. *)
Fixpoint trace_ok (acts : list (action T)) (b : ForeignFifoBuffer) (m : mem T)
    (held : option WritableBuffer.t) : Prop :=
  match acts with
  | [] => True
  | a :: rest =>
      action_pre a b held /\
      match perform a b m held with
      | Some (b', m', held', _) => trace_ok rest b' m' held'
      | None => True
      end
  end.

(** The elements one step adds to the stream. *)
Definition produced (a : action T) : list T :=
  match a with
  | aAppend xs => xs
  | _ => []
  end.

(** The elements the producer wrote, in the order it wrote them. *)
Fixpoint written (acts : list (action T)) : list T :=
  match acts with
  | [] => []
  | a :: rest => produced a ++ written rest
  end.

(** A range the producer holds is the free space after [tail]. *)
Definition held_ok (b : ForeignFifoBuffer) (held : option WritableBuffer.t) : Prop :=
  forall r, held = Some r ->
    WritableBuffer.data r = data b + tail b /\
    WritableBuffer.size r = capacity b - tail b.

End Traces.

(** ** The null state *)

(** The ways a view gets into the null state: built from [nullptr], reset
    by [SetNull], or left behind as the source of a move. *)
Inductive in_null_state : ForeignFifoBuffer -> Prop :=
  | null_constructed : in_null_state ForeignFifoBuffer_null
  | null_after_SetNull b : in_null_state (SetNull b)
  | null_moved_from_construct src : in_null_state (snd (move_construct src))
  | null_moved_from_assign (s : objects) this src :
      in_null_state (move_assign this src s src).

(** ** A concrete platform and concrete memories *)

(** LP64: [size_t] has 64 bits. *)
Definition lp64 : SizeT := {| size_bits := 64 |}.

(** Integers are trivially copyable: a moved-from integer is unchanged. *)
Definition int_copy : Movable Z := {| moved_from := fun z => z |}.

(** An owning handle, as [std::unique_ptr]: empty once moved from. *)
Definition handle_move : Movable (option Z) := {| moved_from := fun _ => None |}.

(** A memory in which every cell holds its own address. *)
Definition addr_mem : mem Z := fun a => a.

(** A memory in which every cell holds a handle to its own address. *)
Definition handle_mem : mem (option Z) := fun a => Some a.

(** A block of eight elements at address 100. *)
Definition demo_view : ForeignFifoBuffer := mkFifo 0 0 8 100.

(** A producer and a consumer taking turns on [demo_view]; the consumer
    copies into a buffer of its own at address 1000. *)
Definition demo_trace : list (action Z) :=
  [ aWrite; aAppend [65; 66; 67; 68];
    aConsume 2;
    aWantWrite 6;
    aWrite; aAppend [69; 70; 71];
    aRead_n 1000 3;
    aAppend [72; 69; 70];
    aConsume 5 ].

(** A store of objects that are all [demo_view] after four elements were
    appended and one consumed. *)
Definition demo_objects : objects := fun _ => mkFifo 1 4 8 100.

(** ** What a call may touch *)

(** The calls that install a block or take it away. *)
Definition rebinds (o : method) : bool :=
  match o with
  | mSetNull | mSetBuffer _ _ | mMoveBuffer _ _ => true
  | _ => false
  end.

(** The cells a call may store to.  The calls that shift store to the
    front of the block, where the live elements land, and to the old live
    range, whose elements are moved from; [MoveBuffer] likewise, with the
    front of the new block as the destination; [Read(p, n)] stores to its
    destination; the rest store nothing. *)
Definition may_write (o : method) (b : ForeignFifoBuffer) (a : pointer) : Prop :=
  match o with
  | mWrite | mWantWrite _ =>
      data b <= a < data b + (tail b - head b) \/
      data b + head b <= a < data b + tail b
  | mRead_n p n => p <= a < p + Z.min n (tail b - head b)
  | mMoveBuffer d _ =>
      d <= a < d + (tail b - head b) \/
      data b + head b <= a < data b + tail b
  | _ => False
  end.

(** Two objects: number 0 is null, every other one is bound to the block
    at 100 and holds three elements. *)
Definition demo_pair : objects :=
  fun i => match i with
           | O => mkFifo 0 0 0 nullptr
           | S _ => mkFifo 1 4 8 100
           end.

(** ** Proof automation *)

(** Unfolds the invariants down to linear arithmetic over the members. *)
Ltac cursors :=
  unfold wf, cursor_inv, is_size in *; simpl in *; lia.

(** The same, with [SIZE_MAX] spelled out as [size_mod - 1]. *)
Ltac max_cursors :=
  unfold wf, cursor_inv, is_size, SIZE_MAX in *; simpl in *; lia.

(** Discharges every assertion that follows from the hypotheses. *)
Ltac pass_asserts :=
  repeat match goal with
         | |- context [assert ?c] =>
             replace c with true by (symmetry; cursors); simpl
         end.

(** * Verification *)

(** ** Arithmetic on [size_t] *)

Section SizeFacts.
Context `{SizeT}.

Lemma size_mod_ge_2 : 2 <= size_mod.
Proof.
  unfold size_mod.
  change 2 with (2 ^ 1) at 1.
  apply Z.pow_le_mono_r; lia.
Qed.

Lemma wrap_small (z : Z) : is_size z -> wrap z = z.
Proof.
  unfold is_size, SIZE_MAX, wrap. intros Hz.
  apply Z.mod_small. lia.
Qed.

Lemma wrap_is_size (z : Z) : is_size (wrap z).
Proof.
  unfold is_size, SIZE_MAX, wrap.
  pose proof size_mod_ge_2.
  pose proof (Z.mod_pos_bound z size_mod). lia.
Qed.

(** An addition that overflows by less than one modulus. *)
Lemma wrap_overflow (z : Z) :
  size_mod <= z < 2 * size_mod -> wrap z = z - size_mod.
Proof.
  unfold wrap. intros Hz.
  symmetry. apply (Z.mod_unique_pos z size_mod 1 (z - size_mod)); lia.
Qed.

Lemma size_add_small (a b : Z) : is_size (a + b) -> size_add a b = a + b.
Proof. apply wrap_small. Qed.

Lemma size_sub_small (a b : Z) : is_size (a - b) -> size_sub a b = a - b.
Proof. apply wrap_small. Qed.

Lemma zero_is_size : is_size 0.
Proof. unfold is_size, SIZE_MAX. pose proof size_mod_ge_2. lia. Qed.

End SizeFacts.

(** ** Memory: loads, stores and the copy loop *)

Section MemoryFacts.
Context {T : Type} `{Movable T}.
Implicit Types (m : mem T) (p a : pointer) (n k : nat).

Lemma mem_lookup_insert m p (x : T) : (<[p := x]> m) p = x.
Proof. apply fn_lookup_insert. Qed.

Lemma mem_lookup_insert_ne m p a (x : T) : p <> a -> (<[p := x]> m) a = m a.
Proof. apply fn_lookup_insert_ne. Qed.

Lemma load_range_length m p n : length (load_range m p n) = n.
Proof.
  revert p. induction n as [|n IH]; intros p; simpl; [done|].
  by rewrite IH.
Qed.

Lemma load_range_ext m m' p n :
  (forall a, p <= a < p + Z.of_nat n -> m a = m' a) ->
  load_range m p n = load_range m' p n.
Proof.
  revert p. induction n as [|n IH]; intros p Hagree; simpl; [done|].
  f_equal.
  - apply Hagree. lia.
  - apply IH. intros a Ha. apply Hagree. lia.
Qed.

Lemma load_range_app m p n k :
  load_range m p (n + k) = load_range m p n ++ load_range m (p + Z.of_nat n) k.
Proof.
  revert p. induction n as [|n IH]; intros p.
  - simpl. by rewrite Z.add_0_r.
  - simpl. rewrite IH. do 3 f_equal. lia.
Qed.

Lemma load_range_take m p n k :
  (k <= n)%nat -> take k (load_range m p n) = load_range m p k.
Proof.
  intros Hk. replace n with (k + (n - k))%nat by lia.
  rewrite load_range_app, take_app_length'; [done|].
  by rewrite load_range_length.
Qed.

Lemma load_range_drop m p n k :
  (k <= n)%nat ->
  drop k (load_range m p n) = load_range m (p + Z.of_nat k) (n - k).
Proof.
  intros Hk. replace n with (k + (n - k))%nat at 1 by lia.
  rewrite load_range_app, drop_app_length'; [done|].
  by rewrite load_range_length.
Qed.

(** A store only changes the cells it names. *)
Lemma store_list_frame p (xs : list T) m a :
  ~ (p <= a < p + Z.of_nat (length xs)) -> store_list p xs m a = m a.
Proof.
  revert p m. induction xs as [|x xs IH]; intros p m Ha; simpl in *; [done|].
  rewrite IH by lia.
  apply mem_lookup_insert_ne. lia.
Qed.

Lemma load_store_list p (xs : list T) m :
  load_range (store_list p xs m) p (length xs) = xs.
Proof.
  revert p m. induction xs as [|x xs IH]; intros p m; simpl; [done|].
  f_equal; [|apply IH].
  rewrite store_list_frame by lia.
  apply mem_lookup_insert.
Qed.

(** The copy loop, cell by cell.  It is the source range that lands at
    the destination as long as the destination does not start inside the
    source range after its first cell: the loop runs forward, so a
    destination at or before the source, or past its end, never
    overwrites a cell that is still to be read. *)
Lemma copy_loop_spec n first d_first m a :
  d_first <= first \/ first + Z.of_nat n <= d_first ->
  copy_loop n first d_first m a =
    if bool_decide (d_first <= a < d_first + Z.of_nat n)
    then m (first + (a - d_first))
    else m a.
Proof.
  revert first d_first m.
  induction n as [|n IH]; intros first d_first m Hpos; simpl.
  - case_bool_decide; [lia|done].
  - rewrite IH by lia.
    repeat case_bool_decide; try lia.
    + rewrite mem_lookup_insert_ne by lia. f_equal. lia.
    + assert (a = d_first) as -> by lia.
      rewrite mem_lookup_insert. f_equal. lia.
    + apply mem_lookup_insert_ne. lia.
Qed.

Lemma copy_loop_frame n first d_first m a :
  ~ (d_first <= a < d_first + Z.of_nat n) ->
  copy_loop n first d_first m a = m a.
Proof.
  revert first d_first m.
  induction n as [|n IH]; intros first d_first m Ha; simpl; [done|].
  rewrite IH by lia.
  apply mem_lookup_insert_ne. lia.
Qed.

Lemma load_copy_loop n first d_first m :
  d_first <= first \/ first + Z.of_nat n <= d_first ->
  load_range (copy_loop n first d_first m) d_first n = load_range m first n.
Proof.
  intros Hpos.
  assert (forall k q, (k <= n)%nat -> q = Z.of_nat (n - k) ->
    load_range (copy_loop n first d_first m) (d_first + q) k
    = load_range m (first + q) k) as Hgen.
  { induction k as [|k IH]; intros q Hk ->; simpl; [done|].
    f_equal.
    - rewrite copy_loop_spec by done.
      case_bool_decide; [f_equal|]; lia.
    - rewrite <- !Z.add_assoc. apply IH; lia. }
  specialize (Hgen n 0 (le_n _)).
  rewrite !Z.add_0_r in Hgen. apply Hgen. lia.
Qed.

(** The move loop, cell by cell, under the same condition on the
    destination: the destination range receives the source range, and a
    source cell that is not overwritten as a destination is left
    moved-from. *)
Lemma move_loop_spec n first d_first m a :
  d_first <= first \/ first + Z.of_nat n <= d_first ->
  move_loop n first d_first m a =
    if bool_decide (d_first <= a < d_first + Z.of_nat n)
    then m (first + (a - d_first))
    else if bool_decide (first <= a < first + Z.of_nat n)
         then moved_from (m a)
         else m a.
Proof.
  revert first d_first m.
  induction n as [|n IH]; intros first d_first m Hpos; simpl.
  - repeat case_bool_decide; try lia; done.
  - rewrite IH by lia.
    repeat case_bool_decide; try lia.
    + rewrite !mem_lookup_insert_ne by lia. f_equal. lia.
    + rewrite !mem_lookup_insert_ne by lia. done.
    + assert (a = d_first) as -> by lia.
      rewrite mem_lookup_insert. f_equal. lia.
    + assert (a = first) as -> by lia.
      rewrite mem_lookup_insert_ne by lia.
      by rewrite mem_lookup_insert.
    + rewrite !mem_lookup_insert_ne by lia. done.
Qed.

(** Wherever the destination lies, the move loop stores to destination
    cells and to source cells only. *)
Lemma move_loop_frame n first d_first m a :
  ~ (d_first <= a < d_first + Z.of_nat n) ->
  ~ (first <= a < first + Z.of_nat n) ->
  move_loop n first d_first m a = m a.
Proof.
  revert first d_first m.
  induction n as [|n IH]; intros first d_first m Hdst Hsrc; simpl; [done|].
  rewrite IH by lia.
  rewrite !mem_lookup_insert_ne by lia. done.
Qed.

Lemma load_move_loop n first d_first m :
  d_first <= first \/ first + Z.of_nat n <= d_first ->
  load_range (move_loop n first d_first m) d_first n = load_range m first n.
Proof.
  intros Hpos.
  assert (forall k q, (k <= n)%nat -> q = Z.of_nat (n - k) ->
    load_range (move_loop n first d_first m) (d_first + q) k
    = load_range m (first + q) k) as Hgen.
  { induction k as [|k IH]; intros q Hk ->; simpl; [done|].
    f_equal.
    - rewrite move_loop_spec by done.
      case_bool_decide; [f_equal|]; lia.
    - rewrite <- !Z.add_assoc. apply IH; lia. }
  specialize (Hgen n 0 (le_n _)).
  rewrite !Z.add_0_r in Hgen. apply Hgen. lia.
Qed.

End MemoryFacts.

(** ** The methods, one by one *)

Lemma assert_true (c : bool) : c = true -> assert c = Some tt.
Proof. by intros ->. Qed.

Section MethodFacts.
Context `{SizeT} {T : Type} `{Movable T}.
Implicit Types (b : ForeignFifoBuffer) (m : mem T).

Lemma live_unfold b m :
  wf b -> cursor_inv b ->
  live b m = load_range m (data b + head b) (Z.to_nat (tail b - head b)).
Proof.
  intros Hwf Hinv. unfold live, contents, Read. simpl.
  rewrite size_sub_small by cursors. done.
Qed.

Lemma live_length b m :
  wf b -> cursor_inv b -> Z.of_nat (length (live b m)) = GetAvailable b.
Proof.
  intros Hwf Hinv. rewrite live_unfold, load_range_length by done.
  unfold GetAvailable. rewrite size_sub_small by cursors. cursors.
Qed.

Lemma GetAvailable_eq b :
  wf b -> cursor_inv b -> GetAvailable b = tail b - head b.
Proof. intros. unfold GetAvailable. apply size_sub_small. cursors. Qed.

(** [Shift] never trips an assertion on a well-formed view.  It leaves a
    view that starts at index 0 alone; otherwise the live elements land,
    in order, at the front of the block, and no cell is stored to that is
    neither one of those nor one of the old live range. *)
Lemma Shift_spec b m :
  wf b -> cursor_inv b ->
  exists m',
    Shift b m = Some (mkFifo 0 (tail b - head b) (capacity b) (data b), m') /\
    (head b = 0 -> m' = m) /\
    load_range m' (data b) (Z.to_nat (tail b - head b)) = live b m /\
    (forall i, ~ (0 <= i < tail b - head b) -> ~ (head b <= i < tail b) ->
               m' (data b + i) = m (data b + i)).
Proof.
  intros Hwf Hinv. rewrite live_unfold by done.
  destruct b as [h t c d]. unfold Shift. simpl.
  destruct (h =? 0) eqn:Hh.
  - assert (h = 0) as -> by lia. exists m.
    rewrite Z.sub_0_r, Z.add_0_r. done.
  - pass_asserts. rewrite size_sub_small by cursors.
    eexists. split; [reflexivity|]. split; [cursors|]. split.
    + unfold std_move.
      replace (d + t - (d + h)) with (t - h) by lia.
      apply load_move_loop. cursors.
    + intros i Hdst Hsrc. unfold std_move.
      replace (d + t - (d + h)) with (t - h) by lia.
      apply move_loop_frame; cursors.
Qed.

Lemma Shift_inv b m b' m' :
  wf b -> cursor_inv b -> Shift b m = Some (b', m') ->
  wf b' /\ cursor_inv b' /\ head b' = 0 /\ tail b' = tail b - head b /\
  capacity b' = capacity b /\ data b' = data b /\ live b' m' = live b m.
Proof.
  intros Hwf Hinv Hrun.
  destruct (Shift_spec b m Hwf Hinv) as (m'' & Heq & _ & Hlive & _).
  rewrite Heq in Hrun. injection Hrun as <- <-.
  assert (wf (mkFifo 0 (tail b - head b) (capacity b) (data b))) by cursors.
  assert (cursor_inv (mkFifo 0 (tail b - head b) (capacity b) (data b))) by cursors.
  repeat split; try done; try cursors.
  rewrite live_unfold by done. simpl.
  rewrite Z.add_0_r, Z.sub_0_r. done.
Qed.

(** The cells [Shift] vacates: a cell of the old live range that does not
    receive a live element is left moved-from. *)
Lemma Shift_vacated b m b' m' i :
  wf b -> cursor_inv b -> Shift b m = Some (b', m') ->
  head b <= i < tail b -> ~ (0 <= i < tail b - head b) ->
  m' (data b + i) = moved_from (m (data b + i)).
Proof.
  intros Hwf Hinv Hshift Hsrc Hdst.
  destruct b as [h t c d]. unfold Shift in Hshift. simpl in *.
  destruct (h =? 0) eqn:Hh; [cursors|].
  rewrite !assert_true in Hshift by cursors. simpl in Hshift.
  injection Hshift as <- <-.
  unfold std_move. rewrite move_loop_spec by cursors.
  repeat case_bool_decide; cursors || done.
Qed.

Lemma Write_spec b m :
  wf b -> cursor_inv b ->
  exists b' m',
    Shift b m = Some (b', m') /\
    Write b m = Some (b', m', Range (data b + (tail b - head b))
                                    (capacity b - (tail b - head b))).
Proof.
  intros Hwf Hinv.
  destruct (Shift_spec b m Hwf Hinv) as (m' & Heq & _).
  eexists _, m'. split; [exact Heq|].
  unfold Write. rewrite Heq. simpl.
  rewrite size_sub_small by cursors. done.
Qed.

Lemma Append_spec n b :
  wf b -> cursor_inv b -> is_size n -> tail b + n <= capacity b ->
  Append n b = Some (set_tail (tail b + n) b).
Proof.
  intros Hwf Hinv Hn Hroom. unfold Append.
  rewrite size_add_small by cursors. pass_asserts. done.
Qed.

Lemma Consume_spec n b :
  wf b -> cursor_inv b -> is_size n -> head b + n <= tail b ->
  Consume n b = Some (set_head (head b + n) b).
Proof.
  intros Hwf Hinv Hn Hroom. unfold Consume.
  rewrite size_add_small by cursors. pass_asserts. done.
Qed.

(** [Read(p, n)] hands out [min (n, available)] elements. *)
Lemma Read_n_spec p n b m :
  wf b -> cursor_inv b -> is_size n ->
  let k := Z.min n (tail b - head b) in
  Read_n p n b m =
    Some (set_head (head b + k) b, std_copy_n (data b + head b) k p m, k).
Proof.
  intros Hwf Hinv Hn k. unfold Read_n, Read. simpl.
  rewrite size_sub_small by cursors.
  assert ((if n >? tail b - head b then tail b - head b else n) = k) as ->.
  { subst k. destruct (n >? tail b - head b) eqn:E; lia. }
  rewrite Consume_spec by (try done; cursors). done.
Qed.

End MethodFacts.

Section ProbeAndRelocate.
Context `{SizeT} {T : Type} `{Movable T}.
Implicit Types (b : ForeignFifoBuffer) (m : mem T).

(** The three ways out of [WantWrite], told apart by integer conditions.
    The first test adds on [size_type]: it also succeeds when [tail + n]
    does not fit in a [size_type] at all. *)
Lemma WantWrite_cases n b m :
  wf b -> cursor_inv b -> is_size n ->
  (tail b + n <= capacity b /\ WantWrite n b m = Some (b, m, true)) \/
  (SIZE_MAX < tail b + n /\ WantWrite n b m = Some (b, m, true)) \/
  (capacity b < tail b + n <= SIZE_MAX /\ capacity b < tail b - head b + n /\
   WantWrite n b m = Some (b, m, false)) \/
  (capacity b < tail b + n <= SIZE_MAX /\ tail b - head b + n <= capacity b /\
   exists m', Shift b m = Some (mkFifo 0 (tail b - head b) (capacity b) (data b), m') /\
     WantWrite n b m = Some (mkFifo 0 (tail b - head b) (capacity b) (data b), m', true)).
Proof.
  intros Hwf Hinv Hn.
  pose proof size_mod_ge_2 as Hmod.
  unfold WantWrite.
  destruct (Z_le_gt_dec (tail b + n) SIZE_MAX) as [Hfit|Hover].
  - rewrite (size_add_small (tail b) n) by cursors.
    destruct (tail b + n <=? capacity b) eqn:Hroom; [left; split; [lia|done]|].
    right; right.
    rewrite size_sub_small by cursors.
    rewrite size_add_small by cursors.
    destruct (tail b - head b + n >? capacity b) eqn:Huse.
    + left. repeat split; try done; lia.
    + right. destruct (Shift_spec b m Hwf Hinv) as (m' & Heq & _).
      repeat split; try lia. exists m'. split; [done|].
      rewrite Heq. simpl.
      rewrite size_add_small by cursors. pass_asserts. done.
  - right; left. split; [lia|].
    unfold size_add. rewrite wrap_overflow by max_cursors.
    destruct (tail b + n - size_mod <=? capacity b) eqn:Hroom; [done|].
    max_cursors.
Qed.

(** [MoveBuffer] checks one thing, the new capacity against the live
    length, and on success the cursors are [0] and the old length whatever
    the new handle is. *)
Lemma MoveBuffer_spec new_data new_capacity b m :
  wf b -> cursor_inv b -> is_size new_capacity ->
  (new_capacity < tail b - head b /\
   MoveBuffer new_data new_capacity b m = None) \/
  (tail b - head b <= new_capacity /\
   MoveBuffer new_data new_capacity b m =
     Some (mkFifo 0 (tail b - head b) new_capacity new_data,
           std_move (data b + head b) (data b + tail b) new_data m)).
Proof.
  intros Hwf Hinv Hc. unfold MoveBuffer.
  rewrite !size_sub_small by cursors.
  destruct (new_capacity >=? tail b - head b) eqn:Hroom.
  - right. split; [lia|done].
  - left. split; [lia|done].
Qed.


End ProbeAndRelocate.

(** ** Traces: what a consumer sees is what the producer wrote *)

Section TraceFacts.
Context `{SizeT} {T : Type} `{Movable T}.
Implicit Types (b : ForeignFifoBuffer) (m : mem T) (a : action T)
  (held : option WritableBuffer.t).

Lemma written_cons a (acts : list (action T)) :
  written (a :: acts) = produced a ++ written acts.
Proof. done. Qed.

Lemma perform_aWantWrite n b m held :
  wf b -> cursor_inv b -> action_pre (T := T) (aWantWrite n) b held ->
  exists b' m',
    perform (aWantWrite n) b m held = Some (b', m', None, []) /\
    wf b' /\ cursor_inv b' /\
    data b' = data b /\ capacity b' = capacity b /\
    live b' m' = live b m.
Proof.
  intros Hwf Hinv Hpre. simpl in Hpre. simpl.
  destruct (WantWrite_cases n b m Hwf Hinv Hpre)
    as [[_ ->]|[[_ ->]|[(_ & _ & ->)|(_ & _ & m' & Hshift & ->)]]]; simpl;
    try (by exists b, m).
  eexists _, m'. split; [reflexivity|].
  destruct (Shift_inv _ _ _ _ Hwf Hinv Hshift) as (? & ? & _ & _ & _ & _ & ?).
  done.
Qed.

Lemma perform_aWrite b m held :
  wf b -> cursor_inv b ->
  exists b' m' r,
    perform aWrite b m held = Some (b', m', Some r, []) /\
    wf b' /\ cursor_inv b' /\ held_ok b' (Some r) /\
    data b' = data b /\ capacity b' = capacity b /\
    live b' m' = live b m.
Proof.
  intros Hwf Hinv.
  destruct (Write_spec b m Hwf Hinv) as (b' & m' & Hshift & Hwrite).
  destruct (Shift_inv _ _ _ _ Hwf Hinv Hshift)
    as (? & ? & Hh & Ht & Hc & Hd & ?).
  simpl. rewrite Hwrite. simpl.
  eexists _, _, _. split; [reflexivity|]. split_and!; try done.
  intros r [= <-]. simpl. split; congruence.
Qed.

Lemma perform_aAppend (xs : list T) b m held :
  wf b -> cursor_inv b -> held_ok b held ->
  action_pre (aAppend xs) b held ->
  exists b' m' held',
    perform (aAppend xs) b m held = Some (b', m', held', []) /\
    wf b' /\ cursor_inv b' /\ held_ok b' held' /\
    data b' = data b /\ capacity b' = capacity b /\
    live b' m' = live b m ++ xs.
Proof.
  intros Hwf Hinv Hheld Hfits.
  destruct held as [r|]; [|done]. simpl in Hfits.
  destruct (Hheld r eq_refl) as [Hdata Hsize].
  simpl. rewrite Append_spec by cursors. simpl.
  eexists _, _, _. split; [reflexivity|].
  assert (wf (set_tail (tail b + Z.of_nat (length xs)) b)) as Hwf'
    by cursors.
  assert (cursor_inv (set_tail (tail b + Z.of_nat (length xs)) b)) as Hinv'
    by cursors.
  split_and!; try done.
  - intros r' [= <-]. unfold range_rest. simpl. split; lia.
  - rewrite (live_unfold (set_tail _ _)), (live_unfold b) by done. simpl.
    replace (Z.to_nat (tail b + Z.of_nat (length xs) - head b))
      with (Z.to_nat (tail b - head b) + length xs)%nat by cursors.
    rewrite load_range_app, Z2Nat.id by cursors.
    replace (data b + head b + (tail b - head b))
      with (WritableBuffer.data r) by lia.
    rewrite load_store_list. f_equal.
    apply load_range_ext. intros a Ha. apply store_list_frame. cursors.
Qed.

Lemma perform_aConsume n b m held :
  wf b -> cursor_inv b -> held_ok b held ->
  action_pre (T := T) (aConsume n) b held ->
  exists b' seen,
    perform (aConsume n) b m held = Some (b', m, held, seen) /\
    wf b' /\ cursor_inv b' /\ held_ok b' held /\
    data b' = data b /\ capacity b' = capacity b /\
    seen ++ live b' m = live b m.
Proof.
  intros Hwf Hinv Hheld Hpre. simpl in Hpre.
  rewrite GetAvailable_eq in Hpre by done.
  simpl. rewrite Consume_spec by cursors. simpl.
  eexists _, _. split; [reflexivity|].
  assert (wf (set_head (head b + n) b)) as Hwf' by cursors.
  assert (cursor_inv (set_head (head b + n) b)) as Hinv' by cursors.
  split_and!; try done.
  fold (live b m).
  rewrite <- (take_drop (Z.to_nat n) (live b m)) at 2. f_equal.
  rewrite (live_unfold (set_head _ _)), (live_unfold b) by done. simpl.
  rewrite load_range_drop by lia.
  rewrite Z2Nat.id by lia. f_equal; lia.
Qed.

Lemma perform_aRead_n p n b m held :
  wf b -> cursor_inv b -> held_ok b held ->
  action_pre (T := T) (aRead_n p n) b held ->
  exists b' m' seen,
    perform (aRead_n p n) b m held = Some (b', m', held, seen) /\
    wf b' /\ cursor_inv b' /\ held_ok b' held /\
    data b' = data b /\ capacity b' = capacity b /\
    seen = take (Z.to_nat n) (live b m) /\
    seen ++ live b' m' = live b m.
Proof.
  intros Hwf Hinv Hheld [Hn Hdst].
  rewrite GetAvailable_eq in Hdst by done.
  simpl. rewrite Read_n_spec by done. simpl.
  set (k := Z.min n (tail b - head b)) in *.
  assert (0 <= k <= tail b - head b) as Hk by cursors.
  eexists _, _, _. split; [reflexivity|].
  assert (wf (set_head (head b + k) b)) as Hwf' by cursors.
  assert (cursor_inv (set_head (head b + k) b)) as Hinv' by cursors.
  assert (load_range (std_copy_n (data b + head b) k p m) p (Z.to_nat k)
          = take (Z.to_nat n) (live b m)) as Hseen.
  { unfold std_copy_n. rewrite load_copy_loop by cursors.
    rewrite live_unfold by done.
    assert (Z.to_nat k = Z.to_nat n `min` Z.to_nat (tail b - head b))%nat as ->
      by lia.
    destruct (Nat.min_spec (Z.to_nat n) (Z.to_nat (tail b - head b)))
      as [[Hlt ->]|[Hge ->]].
    - by rewrite load_range_take by lia.
    - rewrite take_ge; [done|]. by rewrite load_range_length. }
  split_and!; try done.
  rewrite Hseen.
  rewrite <- (take_drop (Z.to_nat n) (live b m)) at 2. f_equal.
  rewrite (live_unfold (set_head _ _)), (live_unfold b) by done. simpl.
  assert (drop (Z.to_nat n) (load_range m (data b + head b) (Z.to_nat (tail b - head b)))
          = load_range m (data b + head b + k) (Z.to_nat (tail b - (head b + k)))) as ->.
  { destruct (Z_le_gt_dec n (tail b - head b)).
    - rewrite load_range_drop by lia.
      rewrite Z2Nat.id by cursors. f_equal; lia.
    - rewrite drop_ge by (rewrite load_range_length; lia).
      replace (Z.to_nat (tail b - (head b + k))) with 0%nat by lia. done. }
  rewrite Z.add_assoc. apply load_range_ext.
  intros a Ha. unfold std_copy_n. apply copy_loop_frame. cursors.
Qed.

(** One step: the code completes, the invariants and the binding are kept,
    and the stream grows at its tail by what was written and shrinks at
    its head by what was seen. *)
Lemma perform_spec a b m held :
  wf b -> cursor_inv b -> held_ok b held -> action_pre a b held ->
  exists b' m' held' seen,
    perform a b m held = Some (b', m', held', seen) /\
    wf b' /\ cursor_inv b' /\ held_ok b' held' /\
    data b' = data b /\ capacity b' = capacity b /\
    seen ++ live b' m' = live b m ++ produced a.
Proof.
  intros Hwf Hinv Hheld Hpre. destruct a as [n| |xs|n|p n].
  - destruct (perform_aWantWrite n b m held)
      as (b' & m' & ? & ? & ? & ? & ? & ?); try done.
    exists b', m', None, []. simpl. rewrite app_nil_r.
    split_and!; try done.
  - destruct (perform_aWrite b m held)
      as (b' & m' & r & ? & ? & ? & ? & ? & ? & ?); try done.
    exists b', m', (Some r), []. simpl. rewrite app_nil_r. done.
  - destruct (perform_aAppend xs b m held)
      as (b' & m' & held' & ? & ? & ? & ? & ? & ? & ?); try done.
    by exists b', m', held', [].
  - destruct (perform_aConsume n b m held)
      as (b' & seen & ? & ? & ? & ? & ? & ? & ?); try done.
    exists b', m, held, seen. simpl. rewrite app_nil_r. done.
  - destruct (perform_aRead_n p n b m held)
      as (b' & m' & seen & ? & ? & ? & ? & ? & ? & ? & ?); try done.
    exists b', m', held, seen. simpl. rewrite app_nil_r. done.
Qed.

Lemma run_spec (acts : list (action T)) b m held :
  wf b -> cursor_inv b -> held_ok b held -> trace_ok acts b m held ->
  exists b' m' seen,
    run acts b m held = Some (b', m', seen) /\
    wf b' /\ cursor_inv b' /\
    data b' = data b /\ capacity b' = capacity b /\
    seen ++ live b' m' = live b m ++ written acts.
Proof.
  revert b m held.
  induction acts as [|a acts IH]; intros b m held Hwf Hinv Hheld Hok.
  - exists b, m, []. simpl. rewrite app_nil_r. done.
  - destruct Hok as [Hpre Hrest].
    destruct (perform_spec a b m held Hwf Hinv Hheld Hpre)
      as (b1 & m1 & held1 & s1 & Hstep & Hwf1 & Hinv1 & Hheld1 & Hd1 & Hc1 & Hs1).
    rewrite Hstep in Hrest.
    destruct (IH b1 m1 held1 Hwf1 Hinv1 Hheld1 Hrest)
      as (b2 & m2 & s2 & Hrun & Hwf2 & Hinv2 & Hd2 & Hc2 & Hs2).
    exists b2, m2, (s1 ++ s2).
    cbn [run]. rewrite Hstep. simpl. rewrite Hrun. simpl.
    split_and!; try done; try congruence.
    rewrite ?written_cons, <- app_assoc, Hs2, !app_assoc, Hs1. done.
Qed.

End TraceFacts.

(** ** Every call keeps the cursors in order *)

Section CallFacts.
Context `{SizeT} {T : Type} `{Movable T}.
Implicit Types (b : ForeignFifoBuffer) (m : mem T).

Lemma SetBuffer_some _data _capacity b :
  _data <> nullptr -> 0 < _capacity ->
  SetBuffer _data _capacity b = Some (mkFifo 0 0 _capacity _data).
Proof.
  intros Hd Hc. unfold SetBuffer, nullptr in *.
  rewrite !assert_true by lia. done.
Qed.

(** A call whose precondition holds completes, and the view it leaves
    is well formed again. *)
Lemma call_spec o b m :
  wf b -> cursor_inv b -> method_pre o b ->
  exists b' m' r,
    call o b m = Some (b', m', r) /\ wf b' /\ cursor_inv b'.
Proof.
  intros Hwf Hinv Hpre.
  destruct o as [|d c|d c| | |n|n|n|p n| | | | | | | |]; simpl in *;
    try (by eexists _, _, _).
  - eexists _, _, _. split; [reflexivity|]. split; cursors.
  - destruct Hpre as (Hc & Hd & Hpos).
    rewrite SetBuffer_some by done. simpl.
    eexists _, _, _. split; [reflexivity|]. split; cursors.
  - destruct Hpre as (Hc & Hroom).
    destruct (MoveBuffer_spec d c b m Hwf Hinv Hc) as [[? _]|[_ ->]]; [lia|].
    simpl. eexists _, _, _. split; [reflexivity|]. split; cursors.
  - eexists _, _, _. split; [reflexivity|]. split; cursors.
  - destruct (Write_spec b m Hwf Hinv) as (b' & m' & Hshift & ->). simpl.
    destruct (Shift_inv _ _ _ _ Hwf Hinv Hshift) as (? & ? & _).
    by eexists _, _, _.
  - destruct (WantWrite_cases n b m Hwf Hinv Hpre)
      as [[_ ->]|[[_ ->]|[(_ & _ & ->)|(_ & _ & m' & Hshift & ->)]]]; simpl;
      try (by eexists _, _, _).
    destruct (Shift_inv _ _ _ _ Hwf Hinv Hshift) as (? & ? & _).
    by eexists _, _, _.
  - destruct Hpre as (Hn & Hroom).
    rewrite Append_spec by done. simpl.
    eexists _, _, _. split; [reflexivity|]. split; cursors.
  - destruct Hpre as (Hn & Hroom).
    rewrite Consume_spec by done. simpl.
    eexists _, _, _. split; [reflexivity|]. split; cursors.
  - rewrite Read_n_spec by done. simpl.
    eexists _, _, _. split; [reflexivity|]. split; cursors.
Qed.

(** What each object holds after [this = std::move (src)].  The source
    is looked at first: when both names denote one object, that object
    ends up null. *)
Lemma move_assign_lookup this src (s : objects) x :
  move_assign this src s x =
    if decide (x = src) then mkFifo 0 0 0 nullptr
    else if decide (x = this)
         then mkFifo (head (s src)) (tail (s src)) (capacity (s src)) (data (s src))
         else s x.
Proof.
  unfold move_assign, insert, fn_insert.
  repeat case_decide; subst; try done.
Qed.

Lemma move_assign_inv this src (s : objects) x :
  (forall o, wf (s o) /\ cursor_inv (s o)) ->
  wf (move_assign this src s x) /\ cursor_inv (move_assign this src s x).
Proof.
  intros Hall. rewrite move_assign_lookup.
  destruct (Hall src) as [Hwf Hinv].
  repeat case_decide; [split; cursors|split; cursors|apply Hall].
Qed.

Lemma reachable_inv b :
  reachable (T := T) b -> wf b /\ cursor_inv b.
Proof.
  induction 1 as [|d c Hc|o b m b' m' r _ [Hwf Hinv] Hpre Hcall
                 |src _ [Hwf Hinv]|src _ [Hwf Hinv]|s this src x _ IH].
  - pose proof zero_is_size. split; cursors.
  - split; cursors.
  - destruct (call_spec o b m Hwf Hinv Hpre) as (b1 & m1 & r1 & Heq & ? & ?).
    rewrite Heq in Hcall. by injection Hcall as <- <- <-.
  - split; cursors.
  - split; cursors.
  - by apply move_assign_inv.
Qed.

(** X2.  The calls that keep [null_inv]: all of them, [MoveBuffer]
    included unless it is handed [nullptr] together with a capacity. *)
Lemma call_null_inv o b m b' m' r :
  wf b -> cursor_inv b -> null_inv b -> method_pre o b ->
  (forall d c, o = mMoveBuffer d c -> d <> nullptr \/ c = 0) ->
  call o b m = Some (b', m', r) -> null_inv b'.
Proof.
  intros Hwf Hinv Hnull Hpre Hhandle Hcall.
  destruct o as [|d c|d c| | |n|n|n|p n| | | | | | | |]; simpl in *;
    try (by injection Hcall as <- <- <-).
  - destruct Hpre as (Hc & Hd & Hpos).
    rewrite SetBuffer_some in Hcall by done. simpl in Hcall.
    injection Hcall as <- <- <-. by intros ?.
  - destruct Hpre as (Hc & Hroom).
    destruct (MoveBuffer_spec d c b m Hwf Hinv Hc) as [[? _]|[_ Heq]]; [lia|].
    rewrite Heq in Hcall. simpl in Hcall. injection Hcall as <- <- <-.
    intros Hd. simpl in *.
    destruct (Hhandle d c eq_refl) as [?| ->]; [done|]. cursors.
  - injection Hcall as <- <- <-. intros Hd. simpl in *.
    destruct (Hnull Hd) as (? & ? & ?). done.
  - destruct (Write_spec b m Hwf Hinv) as (b1 & m1 & Hshift & Heq).
    rewrite Heq in Hcall. simpl in Hcall. injection Hcall as <- <- <-.
    destruct (Shift_inv _ _ _ _ Hwf Hinv Hshift) as (_ & _ & ? & ? & ? & ? & _).
    intros Hd. destruct Hnull as (? & ? & ?); [congruence|].
    split_and!; congruence || lia.
  - destruct (WantWrite_cases n b m Hwf Hinv Hpre)
      as [[_ Heq]|[[_ Heq]|[(_ & _ & Heq)|(_ & _ & m1 & Hshift & Heq)]]];
      rewrite Heq in Hcall; simpl in Hcall; injection Hcall as <- <- <-;
      try done.
    intros Hd. simpl in *. destruct (Hnull Hd) as (? & ? & ?). lia.
  - destruct Hpre as (Hn & Hroom).
    rewrite Append_spec in Hcall by done. simpl in Hcall.
    injection Hcall as <- <- <-. intros Hd. simpl in *.
    destruct (Hnull Hd) as (? & ? & ?). cursors.
  - destruct Hpre as (Hn & Hroom).
    rewrite Consume_spec in Hcall by done. simpl in Hcall.
    injection Hcall as <- <- <-. intros Hd. simpl in *.
    destruct (Hnull Hd) as (? & ? & ?). cursors.
  - rewrite Read_n_spec in Hcall by done. simpl in Hcall.
    injection Hcall as <- <- <-. intros Hd. simpl in *.
    destruct (Hnull Hd) as (? & ? & ?). cursors.
Qed.

End CallFacts.

(** * The claims *)

Section Claims.
Context `{SizeT} {T : Type} `{Movable T}.
Implicit Types (b : ForeignFifoBuffer) (m : mem T).

(** C1.  FIFO order preservation.  Take a well-formed view and any trace
    of producer and consumer calls on its binding in which every write
    goes into the range [Write()] returned, does not exceed it and is
    committed with [Append]; every [Consume(n)] stays within the available
    count; and every [Read(p, n)] copies to a destination outside the
    block.  Then every call completes, the binding is the same at the
    end, and the elements the consumer saw through [Read()] and
    [Read(p, n)], followed by the elements still exposed by [Read()], are
    the elements that were live at the start followed by the elements
    written, in the order they were written, however [Write] and
    [WantWrite] shifted the block in between.  On a binding that starts
    empty, as every fresh binding does, what was seen and what is left to
    see is exactly what was written. *)
Theorem fifo_order_preserved b m (acts : list (action T)) :
  wf b -> cursor_inv b -> trace_ok acts b m None ->
  exists b' m' seen,
    run acts b m None = Some (b', m', seen) /\
    data b' = data b /\ capacity b' = capacity b /\
    seen ++ live b' m' = live b m ++ written acts /\
    (IsEmpty b = true -> seen ++ live b' m' = written acts).
Proof.
  intros Hwf Hinv Hok.
  assert (held_ok b None) as Hheld by (intros r; discriminate).
  destruct (run_spec acts b m None Hwf Hinv Hheld Hok)
    as (b' & m' & seen & Hrun & _ & _ & Hd & Hc & Hseen).
  exists b', m', seen. split_and!; try done.
  intros Hempty. rewrite Hseen, live_unfold by done.
  unfold IsEmpty in Hempty.
  replace (tail b - head b) with 0 by lia. done.
Qed.

(** C2.  [IsFull()] is true exactly when [head == 0] and
    [tail == capacity]; a view with [head > 0] and [tail == capacity] is
    not full. *)
Theorem IsFull_iff b :
  (IsFull b = true <-> head b = 0 /\ tail b = capacity b) /\
  (0 < head b -> tail b = capacity b -> IsFull b = false).
Proof. unfold IsFull. split; [split|]; lia. Qed.

(** X1.  [WantWrite] on the counts for which [tail + n] fits in a
    [size_type].  It answers false exactly when
    [n > capacity - GetAvailable()], and then leaves the view alone; it
    answers true without touching the view when [tail + n <= capacity];
    otherwise it answers true after [Shift]; after a true answer
    [tail + n <= capacity] holds; and the live elements are the same in
    every case. *)
Lemma WantWrite_without_overflow n b m :
  wf b -> cursor_inv b -> is_size n -> tail b + n <= SIZE_MAX ->
  exists b' m' r,
    WantWrite n b m = Some (b', m', r) /\
    (r = false <-> n > capacity b - GetAvailable b) /\
    (r = false -> b' = b /\ m' = m) /\
    (tail b + n <= capacity b -> b' = b /\ m' = m /\ r = true) /\
    (r = true -> capacity b < tail b + n -> Shift b m = Some (b', m')) /\
    (r = true -> tail b' + n <= capacity b') /\
    live b' m' = live b m.
Proof.
  intros Hwf Hinv Hn Hfit. rewrite GetAvailable_eq by done.
  destruct (WantWrite_cases n b m Hwf Hinv Hn)
    as [[? ->]|[[? ->]|[(? & ? & ->)|(? & ? & m' & Hshift & ->)]]].
  - exists b, m, true. split_and!; try done; cursors.
  - lia.
  - exists b, m, false. split_and!; try done; cursors.
  - destruct (Shift_inv _ _ _ _ Hwf Hinv Hshift) as (_ & _ & _ & _ & _ & _ & ?).
    eexists _, m', true. split; [reflexivity|]. simpl.
    split_and!; try done; cursors.
Qed.

(** C4, as amended.  [Shift] completes on every well-formed view.  It is
    a no-op when [head == 0].  In every case it leaves [head = 0] and
    [tail = old tail - old head] with the same block and capacity, the
    same [GetAvailable()] and the same live elements in the same order,
    now starting at index 0; and it changes no element at an index that
    lies outside the old [head, tail) range and outside the destination
    range [0, old tail - old head).  This holds whatever state a move
    leaves an element in. *)
Theorem Shift_compacts b m :
  wf b -> cursor_inv b ->
  exists b' m',
    Shift b m = Some (b', m') /\
    (head b = 0 -> b' = b /\ m' = m) /\
    head b' = 0 /\ tail b' = tail b - head b /\
    capacity b' = capacity b /\ data b' = data b /\
    GetAvailable b' = GetAvailable b /\
    live b' m' = live b m /\
    (forall i, ~ (head b <= i < tail b) ->
               ~ (0 <= i < tail b - head b) ->
               m' (data b + i) = m (data b + i)).
Proof.
  intros Hwf Hinv.
  destruct (Shift_spec b m Hwf Hinv) as (m' & Heq & Hnop & Hlive & Hframe).
  destruct (Shift_inv _ _ _ _ Hwf Hinv Heq) as (Hwf' & Hinv' & _ & _ & _ & _ & ?).
  eexists _, m'. split; [exact Heq|].
  rewrite (GetAvailable_eq b), (GetAvailable_eq (mkFifo _ _ _ _)) by done.
  simpl. split_and!; try done; try lia.
  - intros Hh. split; [|by apply Hnop].
    destruct b as [h t c d]. simpl in *. subst h. f_equal. lia.
  - intros i Hsrc Hdst. by apply Hframe.
Qed.

(** C5.  Every view a program can reach through the constructors, through
    calls of public methods made with their preconditions in force
    ([Append] with [tail + n <= capacity], [Consume] with
    [head + n <= tail], [MoveBuffer] with a capacity of at least the live
    length, [SetBuffer] with a block), and through moves, satisfies
    [0 <= head <= tail <= capacity]; and in every such view a call whose
    precondition holds completes and leaves the invariant in force. *)
Theorem cursor_invariant_reachable b :
  reachable (T := T) b ->
  cursor_inv b /\
  forall o m, method_pre o b ->
    exists b' m' r, call o b m = Some (b', m', r) /\ cursor_inv b'.
Proof.
  intros Hreach. destruct (reachable_inv b Hreach) as [Hwf Hinv].
  split; [done|]. intros o m Hpre.
  destruct (call_spec o b m Hwf Hinv Hpre) as (b' & m' & r & ? & _ & ?).
  by exists b', m', r.
Qed.


(** C8, as amended.  [SetBuffer] trips one of its two assertions exactly
    when it is called with a null handle or with capacity zero.  Every
    other call installs the handle and the capacity and resets
    [head = tail = 0], so that [GetAvailable()] is 0 whatever the view
    held before. *)
Theorem SetBuffer_rebinds _data _capacity b :
  is_size _capacity ->
  (SetBuffer _data _capacity b = None <->
   _data = nullptr \/ _capacity = 0) /\
  (_data <> nullptr -> _capacity <> 0 ->
   exists b',
     SetBuffer _data _capacity b = Some b' /\
     data b' = _data /\ capacity b' = _capacity /\
     head b' = 0 /\ tail b' = 0 /\ GetAvailable b' = 0).
Proof.
  intros Hc. split.
  - unfold SetBuffer, nullptr.
    destruct (_data =? 0) eqn:Hd; simpl; [split; [lia|done]|].
    destruct (_capacity >? 0) eqn:Hpos; simpl; [|split; [intros _|done]].
    + split; [done|]. lia.
    + right. cursors.
  - intros Hd Hpos. rewrite SetBuffer_some by (try done; cursors).
    eexists. split; [reflexivity|]. done.
Qed.

(** C9.  A view in the null state, whether built from [nullptr], reset by
    [SetNull] or left behind by a move, is full and empty at once, and
    nothing is available in it. *)
Theorem null_state_full_and_empty b :
  in_null_state b ->
  IsFull b = true /\ IsEmpty b = true /\ GetAvailable b = 0.
Proof.
  intros [|b0|src|s this src]; rewrite ?move_assign_lookup;
    try case_decide; done.
Qed.

(** C10.  Move-assigning a view from itself leaves it null: [head],
    [tail] and [capacity] are 0 and [data] is [nullptr], whatever it was
    bound to and whatever it held; no other object changes. *)
Theorem self_move_assign_nulls (s : objects) (x : nat) :
  move_assign x x s x = mkFifo 0 0 0 nullptr /\
  IsNull (move_assign x x s x) = true /\
  GetAvailable (move_assign x x s x) = 0 /\
  (forall y, y <> x -> move_assign x x s y = s y).
Proof.
  rewrite move_assign_lookup. case_decide; [|done].
  split_and!; try done.
  intros y Hy. rewrite move_assign_lookup. by repeat case_decide.
Qed.

End Claims.

(** * Further properties of the methods *)

Section Further.
Context `{SizeT} {T : Type} `{Movable T}.
Implicit Types (b : ForeignFifoBuffer) (m : mem T).

(** X3.  [Read(p, n)] never trips an assertion on a well-formed view.  It
    returns [k = min (n, GetAvailable())], advances [head] by [k] and
    leaves [tail], the capacity and the block alone; asking for at least
    what is available empties the view.  It stores to [p[0..k)] only.
    When the destination does not start inside the live range, [p[0..k)]
    holds the first [k] live elements in order and the view still exposes
    the remaining ones. *)
Theorem Read_n_copies_out p n b m :
  wf b -> cursor_inv b -> is_size n ->
  exists b' m',
    Read_n p n b m = Some (b', m', Z.min n (GetAvailable b)) /\
    head b' = head b + Z.min n (GetAvailable b) /\
    tail b' = tail b /\ capacity b' = capacity b /\ data b' = data b /\
    GetAvailable b' = GetAvailable b - Z.min n (GetAvailable b) /\
    (GetAvailable b <= n -> IsEmpty b' = true) /\
    (forall a, ~ (p <= a < p + Z.min n (GetAvailable b)) -> m' a = m a) /\
    (p <= data b + head b \/ data b + tail b <= p ->
     load_range m' p (Z.to_nat (Z.min n (GetAvailable b)))
       = take (Z.to_nat n) (live b m) /\
     live b' m' = drop (Z.to_nat n) (live b m)).
Proof.
  intros Hwf Hinv Hn. rewrite GetAvailable_eq by done.
  rewrite Read_n_spec by done.
  set (k := Z.min n (tail b - head b)).
  assert (0 <= k <= tail b - head b) as Hk by cursors.
  assert (wf (set_head (head b + k) b)) as Hwf' by cursors.
  assert (cursor_inv (set_head (head b + k) b)) as Hinv' by cursors.
  eexists _, _. split; [reflexivity|].
  rewrite (GetAvailable_eq (set_head _ _)) by done. simpl.
  split_and!; try done; try lia.
  - intros Hall. unfold IsEmpty. simpl. lia.
  - intros a Ha. unfold std_copy_n. apply copy_loop_frame. lia.
  - intros Hdst.
    assert (take (Z.to_nat n) (live b m)
            = load_range m (data b + head b) (Z.to_nat k)) as Htake.
    { rewrite live_unfold by done.
      destruct (Z_le_gt_dec n (tail b - head b)).
      - rewrite load_range_take by lia. f_equal. lia.
      - rewrite take_ge by (rewrite load_range_length; lia). f_equal. lia. }
    assert (drop (Z.to_nat n) (live b m)
            = load_range m (data b + head b + k)
                (Z.to_nat (tail b - (head b + k)))) as Hdrop.
    { rewrite live_unfold by done.
      destruct (Z_le_gt_dec n (tail b - head b)).
      - rewrite load_range_drop by lia.
        rewrite Z2Nat.id by cursors. f_equal; lia.
      - rewrite drop_ge by (rewrite load_range_length; lia).
        replace (Z.to_nat (tail b - (head b + k))) with 0%nat by lia.
        done. }
    split.
    + rewrite Htake. unfold std_copy_n. apply load_copy_loop. lia.
    + rewrite Hdrop, live_unfold by done. simpl.
      rewrite Z.add_assoc. apply load_range_ext.
      intros a Ha. unfold std_copy_n. apply copy_loop_frame. lia.
Qed.

(** X4.  On a well-formed view the queries agree with the elements
    [Read()] exposes: [GetAvailable()] is their number,
    [IsEmpty()] says there are none, [GetAvailable()] never exceeds
    [GetCapacity()], and [IsFull()] says the two are equal, so that a
    full view has no free slot before [head] either. *)
Theorem queries_count_live b m :
  wf b -> cursor_inv b ->
  Z.of_nat (length (contents m (Read b))) = GetAvailable b /\
  WritableBuffer.size (Read b) = GetAvailable b /\
  (IsEmpty b = true <-> contents m (Read b) = []) /\
  (IsEmpty b = true <-> GetAvailable b = 0) /\
  GetAvailable b <= GetCapacity b /\
  (IsFull b = true <-> GetAvailable b = GetCapacity b).
Proof.
  intros Hwf Hinv. fold (live b m).
  pose proof (live_length b m Hwf Hinv) as Hlen.
  rewrite GetAvailable_eq in * by done.
  unfold IsEmpty, IsFull, GetCapacity.
  split_and!; try done; try cursors.
  - unfold Read. simpl. apply size_sub_small. cursors.
  - split.
    + intros Hempty. apply length_zero_iff_nil. lia.
    + intros Hnil. rewrite Hnil in Hlen. simpl in Hlen. lia.
Qed.

(** X5.  [Write()] never trips an assertion on a well-formed view.  The
    range it returns is all the free space of the block: it starts right
    after the live elements, which now sit at the front, and its size is
    [capacity - GetAvailable()]; it is empty exactly when the view is
    full.  The live elements are the same.  The only cells stored to are
    the cells the live elements move to and the cells they move from; a
    cell they move from that does not receive a live element is left
    moved-from.  A second [Write()] changes nothing and returns the same
    range. *)
Theorem Write_hands_out_free_space b m :
  wf b -> cursor_inv b ->
  exists b' m' r,
    Write b m = Some (b', m', r) /\
    head b' = 0 /\ tail b' = GetAvailable b /\
    capacity b' = capacity b /\ data b' = data b /\
    WritableBuffer.data r = data b + GetAvailable b /\
    WritableBuffer.size r = capacity b - GetAvailable b /\
    (WritableBuffer.size r = 0 <-> IsFull b' = true) /\
    live b' m' = live b m /\
    (forall a, ~ (data b <= a < data b + GetAvailable b) ->
               ~ (data b + head b <= a < data b + tail b) -> m' a = m a) /\
    (forall a, data b + head b <= a < data b + tail b ->
               ~ (data b <= a < data b + GetAvailable b) ->
               m' a = moved_from (m a)) /\
    Write b' m' = Some (b', m', r).
Proof.
  intros Hwf Hinv. rewrite GetAvailable_eq by done.
  destruct (Write_spec b m Hwf Hinv) as (b' & m' & Hshift & Hwrite).
  destruct (Shift_spec b m Hwf Hinv) as (m'' & Hshift' & _ & _ & Hframe).
  pose proof (Shift_vacated b m b' m') as Hvacated.
  rewrite Hshift in Hshift'. injection Hshift' as -> <-.
  destruct (Shift_inv _ _ _ _ Hwf Hinv Hshift)
    as (Hwf' & Hinv' & _ & _ & _ & _ & Hlive).
  eexists _, m', _. split; [exact Hwrite|]. simpl.
  split_and!; try done.
  - unfold IsFull. simpl. lia.
  - intros a Hdst Hsrc.
    replace a with (data b + (a - data b)) by lia.
    apply Hframe; lia.
  - intros a Hsrc Hdst.
    replace a with (data b + (a - data b)) by lia.
    apply Hvacated; try done; lia.
  - unfold Write, Shift. simpl.
    rewrite size_sub_small by cursors. done.
Qed.

(** X7.  [Clear()] forgets the live elements and nothing else: the view
    is empty, bound to the same block with the same capacity, and the
    next [Write()] hands out the whole block without storing to any
    cell. *)
Theorem Clear_resets b m :
  is_size (capacity b) ->
  IsEmpty (Clear b) = true /\ GetAvailable (Clear b) = 0 /\
  live (Clear b) m = [] /\
  data (Clear b) = data b /\ capacity (Clear b) = capacity b /\
  Write (Clear b) m = Some (Clear b, m, Range (data b) (capacity b)).
Proof.
  intros Hc. split_and!; try done.
  unfold Write, Shift, Clear. simpl.
  rewrite Z.add_0_r, size_sub_small by (rewrite Z.sub_0_r; done).
  by rewrite Z.sub_0_r.
Qed.

(** X6.  Asking before writing.  For a count [n] such that [tail + n]
    fits in a [size_type], [WantWrite(n)] answers true exactly when the
    range the next [Write()] returns has room for [n] elements; and
    whatever it answers, that [Write()] leaves the view and the memory, and
    returns the range, that [Write()] alone would have. *)
Theorem WantWrite_then_Write n b m :
  wf b -> cursor_inv b -> is_size n -> tail b + n <= SIZE_MAX ->
  exists b1 m1 ok b2 m2 r,
    WantWrite n b m = Some (b1, m1, ok) /\
    Write b1 m1 = Some (b2, m2, r) /\
    Write b m = Some (b2, m2, r) /\
    (ok = true <-> n <= WritableBuffer.size r).
Proof.
  intros Hwf Hinv Hn Hfit.
  destruct (Write_spec b m Hwf Hinv) as (b2 & m2 & Hshift & Hwrite).
  destruct (WantWrite_cases n b m Hwf Hinv Hn)
    as [[? ->]|[[? ->]|[(? & ? & ->)|(? & ? & m' & Hshift' & ->)]]].
  - eexists b, m, true, b2, m2, _. split_and!; try done. cursors.
  - lia.
  - eexists b, m, false, b2, m2, _. split_and!; try done. cursors.
  - rewrite Hshift in Hshift'. injection Hshift' as -> ->.
    eexists _, m', true, _, m',
      (Range (data b + (tail b - head b)) (capacity b - (tail b - head b))).
    split_and!; try done.
    + unfold Write, Shift. simpl.
      rewrite size_sub_small by cursors. done.
    + cursors.
Qed.

(** X8.  What [Append]'s assertions let through.  On a well-formed view
    [Append(n)] is refused exactly when [tail + n] exceeds the capacity
    and, in addition, [n] alone exceeds it or the sum fits in a
    [size_type]; within the capacity it adds [n] to [tail].  On a block
    of at most half the [size_type] range the sum always fits, and
    [Append(n)] is refused exactly when [tail + n > capacity]. *)
Theorem Append_assertions n b :
  wf b -> cursor_inv b -> is_size n ->
  (Append n b = None <->
   capacity b < tail b + n /\ (capacity b < n \/ tail b + n <= SIZE_MAX)) /\
  (tail b + n <= capacity b ->
   Append n b = Some (set_tail (tail b + n) b)) /\
  (2 * capacity b <= SIZE_MAX ->
   (Append n b = None <-> capacity b < tail b + n)).
Proof.
  intros Hwf Hinv Hn.
  assert (Append n b = None <->
          capacity b < tail b + n /\
          (capacity b < n \/ tail b + n <= SIZE_MAX)) as Hexact.
  { unfold Append. rewrite (assert_true (tail b <=? capacity b)) by cursors.
    simpl. destruct (n <=? capacity b) eqn:Hfits; simpl; [|split; [cursors|done]].
    destruct (Z_le_gt_dec (tail b + n) SIZE_MAX) as [Hsum|Hsum].
    - rewrite size_add_small by cursors.
      destruct (tail b + n <=? capacity b) eqn:Hroom; simpl;
        (split; [try done; lia|try done; lia]).
    - unfold size_add. rewrite wrap_overflow by max_cursors.
      rewrite assert_true by max_cursors. simpl.
      split; [done|lia]. }
  split_and!; [exact Hexact|by apply Append_spec|].
  intros Hhalf. rewrite Hexact. cursors.
Qed.

(** X9.  What [Consume]'s assertions let through.  On a well-formed view
    [Consume(n)] is refused exactly when [head + n] exceeds [tail] and, in
    addition, [n] alone exceeds [tail] or the sum fits in a [size_type];
    within [tail] it adds [n] to [head].  On a block of at most half the
    [size_type] range [Consume(n)] is refused exactly when
    [head + n > tail]. *)
Theorem Consume_assertions n b :
  wf b -> cursor_inv b -> is_size n ->
  (Consume n b = None <->
   tail b < head b + n /\ (tail b < n \/ head b + n <= SIZE_MAX)) /\
  (head b + n <= tail b ->
   Consume n b = Some (set_head (head b + n) b)) /\
  (2 * capacity b <= SIZE_MAX ->
   (Consume n b = None <-> tail b < head b + n)).
Proof.
  intros Hwf Hinv Hn.
  assert (Consume n b = None <->
          tail b < head b + n /\
          (tail b < n \/ head b + n <= SIZE_MAX)) as Hexact.
  { unfold Consume.
    rewrite (assert_true (tail b <=? capacity b)) by cursors. simpl.
    rewrite (assert_true (head b <=? tail b)) by cursors. simpl.
    destruct (n <=? tail b) eqn:Hfits; simpl; [|split; [cursors|done]].
    destruct (Z_le_gt_dec (head b + n) SIZE_MAX) as [Hsum|Hsum].
    - rewrite size_add_small by cursors.
      destruct (head b + n <=? tail b) eqn:Hroom; simpl;
        (split; [try done; lia|try done; lia]).
    - unfold size_add. rewrite wrap_overflow by max_cursors.
      rewrite assert_true by max_cursors. simpl.
      split; [done|lia]. }
  split_and!; [exact Hexact|by apply Consume_spec|].
  intros Hhalf. rewrite Hexact. cursors.
Qed.

(** X10.  What a view is bound to changes only through [SetNull],
    [SetBuffer] or [MoveBuffer] called on it, or through a move into it
    or out of it.  Whatever state the view is in and whether or not the
    preconditions hold, a call of any other method that returns leaves
    [data] and [capacity] as they were; a move assignment leaves every
    object other than its destination and its source as it was; and the
    destination of a move, by assignment or by construction, takes over
    [data] and [capacity] of the source, which is left without a
    block. *)
Theorem call_keeps_binding :
  (forall o b (m : mem T) b' m' r,
     rebinds o = false -> call o b m = Some (b', m', r) ->
     data b' = data b /\ capacity b' = capacity b) /\
  (forall (s : objects) this src x,
     x <> this -> x <> src -> move_assign this src s x = s x) /\
  (forall (s : objects) this src,
     this <> src ->
     data (move_assign this src s this) = data (s src) /\
     capacity (move_assign this src s this) = capacity (s src)) /\
  (forall (s : objects) this src,
     data (move_assign this src s src) = nullptr /\
     capacity (move_assign this src s src) = 0) /\
  (forall src,
     data (fst (move_construct src)) = data src /\
     capacity (fst (move_construct src)) = capacity src /\
     data (snd (move_construct src)) = nullptr /\
     capacity (snd (move_construct src)) = 0).
Proof.
  split_and!.
  - intros o b m b' m' r Hkeep Hcall.
    destruct o; try discriminate Hkeep; simpl in Hcall;
      unfold Write, WantWrite, Read_n, Append, Consume, Shift, assert in Hcall;
      repeat case_match; simplify_option_eq; done.
  - intros s this src x Hthis Hsrc. rewrite move_assign_lookup.
    by repeat case_decide.
  - intros s this src Hdistinct. rewrite move_assign_lookup.
    by repeat case_decide.
  - intros s this src. rewrite move_assign_lookup.
    by repeat case_decide.
  - done.
Qed.

(** X11.  Where the methods store.  On a
    well-formed view, [Write] and [WantWrite] store only to the front of
    the block, below the live length, and to the old live range;
    [MoveBuffer] only to the front of the new block, below the live
    length, and to the old live range; [Read(p, n)] only to
    [p[0..min (n, available))]; and [SetNull], [SetBuffer], [Clear],
    [Append], [Consume] and the queries do not store to memory at all.
    The move constructor and move assignment assign the four members and
    have no access to elements. *)
Theorem call_memory_frame o b m b' m' r a :
  wf b -> cursor_inv b ->
  call o b m = Some (b', m', r) ->
  ~ may_write o b a -> m' a = m a.
Proof.
  intros Hwf Hinv Hcall Hout.
  assert (forall b1 m1, Shift b m = Some (b1, m1) ->
          ~ (data b <= a < data b + (tail b - head b)) ->
          ~ (data b + head b <= a < data b + tail b) -> m1 a = m a)
    as Hshift.
  { intros b1 m1 Heq Hdst Hsrc.
    destruct (Shift_spec b m Hwf Hinv) as (m2 & Heq' & _ & _ & Hframe).
    rewrite Heq' in Heq. injection Heq as <- <-.
    replace a with (data b + (a - data b)) by lia.
    apply Hframe; lia. }
  destruct o as [|d c|d c| | |n|n|n|p n| | | | | | | |]; simpl in *;
    try (by simplify_option_eq).
  - unfold MoveBuffer in Hcall. simplify_option_eq.
    unfold std_move. apply move_loop_frame; lia.
  - unfold Write in Hcall.
    destruct (Shift b m) as [[b1 m1]|] eqn:Heq; simplify_option_eq.
    eapply Hshift; [done|lia|lia].
  - unfold WantWrite in Hcall.
    destruct (size_add (tail b) n <=? capacity b);
      [by simplify_option_eq|].
    destruct (size_add (size_sub (tail b) (head b)) n >? capacity b);
      [by simplify_option_eq|].
    destruct (Shift b m) as [[b1 m1]|] eqn:Heq; simplify_option_eq.
    eapply Hshift; [done|lia|lia].
  - unfold Read_n, Read in Hcall. simpl in Hcall.
    rewrite size_sub_small in Hcall by cursors.
    simplify_option_eq.
    unfold std_copy_n. apply copy_loop_frame.
    destruct (n >? tail b - head b) eqn:Hclamp; lia.
Qed.

(** X12.  Moving between two distinct objects transfers the view and
    nothing else.  After [this = std::move (src)] the destination is what
    the move constructor would have built from [src], so it exposes the
    same elements through [Read()], whatever it was bound to before; the
    source is what the move constructor would have left, the null view;
    and every other object is as it was. *)
Theorem move_transfers (s : objects) (this src : nat) m :
  this <> src ->
  move_assign this src s this = fst (move_construct (s src)) /\
  move_assign this src s src = snd (move_construct (s src)) /\
  Read (move_assign this src s this) = Read (s src) /\
  live (move_assign this src s this) m = live (s src) m /\
  IsNull (move_assign this src s src) = true /\
  (forall y, y <> this -> y <> src -> move_assign this src s y = s y).
Proof.
  intros Hdistinct. rewrite !move_assign_lookup.
  repeat case_decide; try done.
  split_and!; try done.
  intros y Hthis Hsrc. rewrite move_assign_lookup.
  by repeat case_decide.
Qed.

(** X13.  [GetAvailable()] is the count committed minus the count
    consumed.  Over any trace of producer and consumer calls made within
    their conditions of use, the available count at the end is the count
    at the start, plus the number of elements appended, minus the number
    of elements the consumer took out; and it never exceeds the
    capacity. *)
Theorem available_accounting b m (acts : list (action T)) :
  wf b -> cursor_inv b -> trace_ok acts b m None ->
  exists b' m' seen,
    run acts b m None = Some (b', m', seen) /\
    GetAvailable b' =
      GetAvailable b + Z.of_nat (length (written acts))
                     - Z.of_nat (length seen) /\
    0 <= GetAvailable b' <= capacity b.
Proof.
  intros Hwf Hinv Hok.
  assert (held_ok b None) as Hheld by (intros r; discriminate).
  destruct (run_spec acts b m None Hwf Hinv Hheld Hok)
    as (b' & m' & seen & Hrun & Hwf' & Hinv' & _ & Hc & Hseen).
  exists b', m', seen. split; [done|].
  apply (f_equal length) in Hseen. rewrite !length_app in Hseen.
  pose proof (live_length b m Hwf Hinv).
  pose proof (live_length b' m' Hwf' Hinv').
  rewrite (GetAvailable_eq b') in * by done.
  split; [lia|cursors].
Qed.

(** X14.  Commits and consumes add up.  Within the capacity, appending
    [n1] and then [n2] elements is appending [n1 + n2]; within the live
    range, consuming [n1] and then [n2] elements is consuming
    [n1 + n2]. *)
Theorem commits_and_consumes_add n1 n2 b :
  wf b -> cursor_inv b -> 0 <= n1 -> 0 <= n2 ->
  (tail b + n1 + n2 <= capacity b ->
   Append n1 b ≫= Append n2 = Append (n1 + n2) b /\
   Append (n1 + n2) b = Some (set_tail (tail b + n1 + n2) b)) /\
  (head b + n1 + n2 <= tail b ->
   Consume n1 b ≫= Consume n2 = Consume (n1 + n2) b /\
   Consume (n1 + n2) b = Some (set_head (head b + n1 + n2) b)).
Proof.
  intros Hwf Hinv Hn1 Hn2. split; intros Hroom.
  - rewrite (Append_spec n1 b), (Append_spec (n1 + n2) b) by cursors.
    simpl. rewrite Append_spec by cursors.
    unfold set_tail. simpl. rewrite Z.add_assoc. done.
  - rewrite (Consume_spec n1 b), (Consume_spec (n1 + n2) b) by cursors.
    simpl. rewrite Consume_spec by cursors.
    unfold set_head. simpl. rewrite Z.add_assoc. done.
Qed.

(** X15.  Draining makes the whole block writable again at no cost.
    Consuming everything that is available empties the view, and the next
    [Write()] resets both cursors to 0 and hands out the whole block
    without storing to a single cell. *)
Theorem drain_then_write b m :
  wf b -> cursor_inv b ->
  exists b1,
    Consume (GetAvailable b) b = Some b1 /\
    IsEmpty b1 = true /\
    Write b1 m =
      Some (mkFifo 0 0 (capacity b) (data b), m,
            Range (data b) (capacity b)).
Proof.
  intros Hwf Hinv. rewrite GetAvailable_eq by done.
  rewrite Consume_spec by cursors.
  eexists. split; [reflexivity|].
  destruct b as [h t c d]. unfold set_head. simpl in *.
  replace (h + (t - h)) with t by lia.
  split; [unfold IsEmpty; simpl; lia|].
  assert (size_sub c 0 = c) as Hcap.
  { unfold size_sub. rewrite Z.sub_0_r. apply wrap_small. cursors. }
  unfold Write, Shift. simpl.
  destruct (t =? 0) eqn:Hzero.
  - assert (t = 0) as -> by lia. simpl.
    by rewrite Z.add_0_r, Hcap.
  - pass_asserts.
    unfold std_move.
    replace (d + t - (d + t)) with 0 by lia.
    replace (size_sub t t) with 0
      by (unfold size_sub; rewrite Z.sub_diag; done).
    simpl. by rewrite Z.add_0_r, Hcap.
Qed.

(** X16.  Relocation leaves the view compacted.  After a [MoveBuffer]
    that passed its check the live elements start at index 0 of the new
    block, so the next [Write()] moves nothing and hands out everything
    behind them: [new_capacity - GetAvailable()] slots. *)
Theorem MoveBuffer_then_Write new_data new_capacity b m :
  wf b -> cursor_inv b -> is_size new_capacity ->
  GetAvailable b <= new_capacity ->
  exists b1 m1,
    MoveBuffer new_data new_capacity b m = Some (b1, m1) /\
    Write b1 m1 =
      Some (b1, m1, Range (new_data + GetAvailable b)
                          (new_capacity - GetAvailable b)).
Proof.
  intros Hwf Hinv Hc. rewrite GetAvailable_eq by done. intros Hroom.
  destruct (MoveBuffer_spec new_data new_capacity b m Hwf Hinv Hc)
    as [[? _]|[_ ->]]; [lia|].
  eexists _, _. split; [reflexivity|].
  unfold Write, Shift. simpl.
  rewrite size_sub_small by cursors. done.
Qed.

(** X17.  The null view is inert.  Whatever the arguments, a call of a
    method on a view built from [nullptr], other than [SetBuffer] and
    [MoveBuffer], either is refused by an assertion or leaves the view
    null and the memory as it was: nothing is loaded from or stored to
    the missing block.  [Write()] hands out the empty range at
    [nullptr], [Read(p, n)] copies nothing and returns 0, and
    [WantWrite(n)] answers true for [n = 0] only.  A null view stays null
    when it is the source of a move and when other objects are moved;
    only as the destination of a move assignment does it change, and
    then it is null exactly when the source was. *)
Theorem null_view_is_inert :
  (forall o (m : mem T) b' m' r,
     rebinds o = false ->
     call o ForeignFifoBuffer_null m = Some (b', m', r) ->
     b' = ForeignFifoBuffer_null /\ m' = m /\
     (o = mWrite -> r = RRange (Range nullptr 0)) /\
     (forall p n, o = mRead_n p n -> is_size n -> r = RSize 0) /\
     (forall n, o = mWantWrite n -> is_size n -> r = RBool (n =? 0))) /\
  (forall (m : mem T),
     call mSetNull ForeignFifoBuffer_null m
       = Some (ForeignFifoBuffer_null, m, RVoid)) /\
  (forall (s : objects) this src x,
     s x = ForeignFifoBuffer_null -> x <> this ->
     move_assign this src s x = ForeignFifoBuffer_null) /\
  move_construct ForeignFifoBuffer_null
    = (ForeignFifoBuffer_null, ForeignFifoBuffer_null) /\
  (forall (s : objects) this src,
     this <> src ->
     IsNull (move_assign this src s this) = IsNull (s src)).
Proof.
  split_and!.
  - intros o m b' m' r Hkeep Hcall.
    assert (forall n, wrap n <= 0 -> wrap n = 0) as Hwrap.
    { intros n Hle. pose proof (wrap_is_size n) as [? _]. lia. }
    assert (forall n, is_size n -> wrap n = n) as Hsmall
      by (intros; by apply wrap_small).
    destruct o as [|d c|d c| | |n|n|n|p n| | | | | | | |];
      try discriminate Hkeep; simpl in Hcall.
    + by simplify_option_eq.
    + injection Hcall as <- <- <-. split_and!; try done.
    + unfold WantWrite, size_add, size_sub in Hcall. simpl in Hcall.
      change (wrap (0 - 0)) with 0 in Hcall.
      rewrite !Z.add_0_l in Hcall.
      pose proof (wrap_is_size n) as [Hpos _].
      destruct (wrap n <=? 0) eqn:Hle; [|destruct (wrap n >? 0) eqn:Hgt; [|lia]];
        simpl in Hcall; injection Hcall as <- <- <-;
        (split_and!; try done; intros n' [= <-] Hn';
         rewrite Hsmall in * by done; f_equal; lia).
    + unfold Append, size_add, assert in Hcall. simpl in Hcall.
      rewrite !Z.add_0_l in Hcall.
      repeat case_match; simplify_option_eq.
      unfold set_tail, ForeignFifoBuffer_null. simpl.
      rewrite Hwrap by lia. done.
    + unfold Consume, size_add, assert in Hcall. simpl in Hcall.
      rewrite !Z.add_0_l in Hcall.
      repeat case_match; simplify_option_eq.
      unfold set_head, ForeignFifoBuffer_null. simpl.
      rewrite Hwrap by lia. done.
    + unfold Read_n, Read, Consume, size_add, size_sub, assert in Hcall.
      simpl in Hcall. change (wrap (0 - 0)) with 0 in Hcall.
      rewrite ?Z.add_0_l in Hcall.
      destruct (n >? 0) eqn:Hn.
      * simpl in Hcall. injection Hcall as <- <- <-.
        split_and!; try done.
      * repeat case_match; simplify_option_eq.
        assert (Z.to_nat n = 0%nat) as Hcount by lia.
        unfold std_copy_n, set_head, ForeignFifoBuffer_null. simpl.
        rewrite Hcount, Hwrap by lia. simpl.
        split_and!; try done.
        intros p' n' [= <- <-] Hn'. f_equal. cursors.
    + by simplify_option_eq.
    + by simplify_option_eq.
    + by simplify_option_eq.
    + by simplify_option_eq.
    + by simplify_option_eq.
    + by simplify_option_eq.
    + by simplify_option_eq.
    + by simplify_option_eq.
  - done.
  - intros s this src x Hnull Hthis. rewrite move_assign_lookup.
    by repeat case_decide.
  - done.
  - intros s this src Hdistinct. rewrite move_assign_lookup.
    by repeat case_decide.
Qed.

End Further.

(** * Concrete runs on LP64 *)

#[local] Existing Instance lp64.
#[local] Existing Instance int_copy.
#[local] Existing Instance handle_move.

Lemma lp64_is_size (z : Z) : 0 <= z <= 18446744073709551615 -> is_size z.
Proof. intros Hz. exact Hz. Qed.

(** The trace of [demo_trace], run: the consumer sees the ten elements in
    the order they were written, and the view ends empty at index 8. *)
Example demo_trace_run :
  (run demo_trace demo_view addr_mem None ≫= λ '(b, _, seen), Some (b, seen))
  = Some (mkFifo 8 8 8 100, [65; 66; 67; 68; 69; 70; 71; 72; 69; 70]).
Proof. vm_compute. reflexivity. Qed.

Lemma demo_trace_ok : trace_ok demo_trace demo_view addr_mem None.
Proof. vm_compute. intuition discriminate. Qed.

(** Scenarios 1 and 2 of the specification: write [A, B, C, D], then
    consume two. *)
Example scenario_write_then_consume :
  (perform aWrite demo_view addr_mem None ≫= λ '(b0, m0, r0, _),
   perform (aAppend [65; 66; 67; 68]) b0 m0 r0 ≫= λ '(b1, m1, r1, _),
   perform (aConsume 2) b1 m1 r1 ≫= λ '(b2, m2, _, seen),
   Some (GetAvailable b1, live b1 m1, seen, b2, GetAvailable b2, live b2 m2))
  = Some (4, [65; 66; 67; 68], [65; 66], mkFifo 2 4 8 100, 2, [67; 68]).
Proof. vm_compute. reflexivity. Qed.

(** Scenario 3: with [head = 2], [tail = 4], [WantWrite(6)] compacts and
    answers true; six more elements fill the block. *)
Example scenario_probe_compacts :
  (WantWrite 6 (mkFifo 2 4 8 100) addr_mem ≫= λ '(b1, m1, r),
   perform aWrite b1 m1 None ≫= λ '(b1', m1', r1, _),
   perform (aAppend [69; 70; 71; 72; 69; 70]) b1' m1' r1 ≫= λ '(b2, m2, _, _),
   Some (r, b1, b2, IsFull b2, live b2 m2))
  = Some (true, mkFifo 0 2 8 100, mkFifo 0 8 8 100, true,
          [102; 103; 69; 70; 71; 72; 69; 70]).
Proof. vm_compute. reflexivity. Qed.

(** Scenario 4: consuming everything leaves [head = tail = 8]; the next
    [Write()] shifts to [head = tail = 0]. *)
Example scenario_drain_then_write :
  (Consume 8 (mkFifo 0 8 8 100) ≫= λ b1,
   Write b1 addr_mem ≫= λ '(b2, _, r),
   Some (b1, IsEmpty b1, GetAvailable b1, b2, r))
  = Some (mkFifo 8 8 8 100, true, 0, mkFifo 0 0 8 100, Range 100 8).
Proof. vm_compute. reflexivity. Qed.

(** Scenario 5: a full block of four refuses one more element and is
    left as it was. *)
Example scenario_full_refuses :
  (WantWrite 1 (mkFifo 0 4 4 100) addr_mem ≫= λ '(b1, m1, r),
   Some (r, b1, live b1 m1))
  = Some (false, mkFifo 0 4 4 100, [100; 101; 102; 103]).
Proof. vm_compute. reflexivity. Qed.

(** Compaction of a block of owning handles: the three live handles
    land at the front and the one cell they vacate without refilling is
    left empty. *)
Example shift_leaves_moved_from :
  (Shift (mkFifo 1 4 8 100) handle_mem ≫= λ '(b', m'),
   Some (b', load_range m' 100 5))
  = Some (mkFifo 0 3 8 100,
          [Some 101; Some 102; Some 103; None; Some 104]).
Proof. vm_compute. reflexivity. Qed.

(** ** Witnesses and counterexamples *)

Lemma fifo_order_preserved_witness :
  exists b' m' seen,
    run demo_trace (ForeignFifoBuffer_new 100 8) addr_mem None
      = Some (b', m', seen) /\
    seen ++ live b' m' = written demo_trace.
Proof.
  destruct (fifo_order_preserved (ForeignFifoBuffer_new 100 8) addr_mem demo_trace)
    as (b' & m' & seen & Hrun & _ & _ & _ & Hseen).
  - split_and!; apply lp64_is_size; simpl; lia.
  - unfold cursor_inv. simpl. lia.
  - exact demo_trace_ok.
  - exists b', m', seen. split; [exact Hrun|]. apply Hseen. reflexivity.
Defined.

Lemma IsFull_iff_witness : IsFull (mkFifo 3 8 8 100) = false.
Proof.
  apply (proj2 (IsFull_iff (mkFifo 3 8 8 100))); simpl; [lia|reflexivity].
Defined.

(** C3, at the failing input.  With [tail = 2] in a block of eight,
    [WantWrite(SIZE_MAX)] finds [tail + n] wrapped around to 1, takes the
    first exit and answers true without touching the view, although the
    count exceeds [capacity - GetAvailable()] = 6. *)
Theorem WantWrite_accepts_overflowing_count :
  WantWrite SIZE_MAX (mkFifo 0 2 8 100) addr_mem
    = Some (mkFifo 0 2 8 100, addr_mem, true) /\
  size_add (tail (mkFifo 0 2 8 100)) SIZE_MAX = 1 /\
  SIZE_MAX > capacity (mkFifo 0 2 8 100) - GetAvailable (mkFifo 0 2 8 100).
Proof. split_and!; vm_compute; reflexivity. Qed.

Lemma WantWrite_without_overflow_witness :
  exists b' m',
    WantWrite 6 (mkFifo 2 4 8 100) addr_mem = Some (b', m', true) /\
    Shift (mkFifo 2 4 8 100) addr_mem = Some (b', m') /\
    tail b' + 6 <= capacity b'.
Proof.
  destruct (WantWrite_without_overflow 6 (mkFifo 2 4 8 100) addr_mem)
    as (b' & m' & r & Heq & Hfalse & _ & _ & Hshift & Hroom & _).
  - split_and!; apply lp64_is_size; simpl; lia.
  - unfold cursor_inv. simpl. lia.
  - apply lp64_is_size. lia.
  - vm_compute. discriminate.
  - destruct r.
    + exists b', m'. split_and!; [exact Heq| |]; auto.
      apply Hshift; [done|simpl; lia].
    + exfalso. destruct Hfalse as [Hgt _].
      specialize (Hgt eq_refl). vm_compute in Hgt. discriminate.
Defined.

(** C4, as stated, fails: shifting a view with [head = 2], [tail = 4]
    overwrites index 0, which lies outside [2, 4). *)
Lemma Shift_changes_front_counterexample :
  exists b' m',
    Shift (mkFifo 2 4 8 100) addr_mem = Some (b', m') /\
    ~ (forall i, ~ (head (mkFifo 2 4 8 100) <= i < tail (mkFifo 2 4 8 100)) ->
                 m' (100 + i) = addr_mem (100 + i)).
Proof.
  eexists _, _. split; [reflexivity|].
  intros Hall. specialize (Hall 0).
  assert (102 = 100) as Habsurd; [|discriminate].
  apply Hall. simpl. lia.
Defined.

Lemma Shift_compacts_witness :
  exists b' m',
    Shift (mkFifo 2 4 8 100) handle_mem = Some (b', m') /\
    head b' = 0 /\ tail b' = 2 /\
    live b' m' = live (mkFifo 2 4 8 100) handle_mem /\
    m' 104 = handle_mem 104.
Proof.
  destruct (Shift_compacts (mkFifo 2 4 8 100) handle_mem)
    as (b' & m' & Heq & _ & Hh & Ht & _ & _ & _ & Hlive & Hframe).
  - split_and!; apply lp64_is_size; simpl; lia.
  - unfold cursor_inv. simpl. lia.
  - exists b', m'. split_and!; try done.
    apply (Hframe 4); simpl; lia.
Defined.

Lemma demo_reachable : reachable (T := Z) (mkFifo 2 4 8 100).
Proof.
  apply (reach_call (mConsume 2) (mkFifo 0 4 8 100) addr_mem _ addr_mem RVoid).
  - apply (reach_call (mAppend 4) (mkFifo 0 0 8 100) addr_mem _ addr_mem RVoid).
    + apply (reach_new 100 8). apply lp64_is_size. lia.
    + split; [apply lp64_is_size|]; simpl; lia.
    + vm_compute. reflexivity.
  - split; [apply lp64_is_size|]; simpl; lia.
  - vm_compute. reflexivity.
Defined.

Lemma cursor_invariant_reachable_witness : cursor_inv (mkFifo 2 4 8 100).
Proof.
  exact (proj1 (cursor_invariant_reachable (T := Z) (mkFifo 2 4 8 100)
                  demo_reachable)).
Defined.

(** C6, at the failing input.  The two-argument constructor takes any
    handle: given [nullptr] and a capacity of 8 it builds a view whose
    [data] is null and whose capacity is not 0.  [MoveBuffer] does the
    same to a bound view.  [SetBuffer], the third way to install a
    handle, asserts that the handle is not null. *)
Theorem null_handle_with_capacity_reachable :
  reachable (T := Z) (ForeignFifoBuffer_new nullptr 8) /\
  IsNull (ForeignFifoBuffer_new nullptr 8) = true /\
  capacity (ForeignFifoBuffer_new nullptr 8) = 8 /\
  ~ null_inv (ForeignFifoBuffer_new nullptr 8) /\
  method_pre (mMoveBuffer nullptr 8) demo_view /\
  MoveBuffer nullptr 8 demo_view addr_mem = Some (mkFifo 0 0 8 nullptr, addr_mem) /\
  SetBuffer nullptr 8 demo_view = None.
Proof.
  split_and!; try (vm_compute; reflexivity).
  - apply reach_new. apply lp64_is_size. lia.
  - intros Hnull. destruct (Hnull eq_refl) as [Hcap _]. discriminate.
  - split; [apply lp64_is_size|]; simpl; lia.
Qed.

Lemma call_null_inv_witness :
  null_inv (mkFifo 0 0 0 nullptr) /\
  call mWrite ForeignFifoBuffer_null addr_mem
    = Some (mkFifo 0 0 0 nullptr, addr_mem, RRange (Range nullptr 0)).
Proof.
  assert (call mWrite ForeignFifoBuffer_null addr_mem
          = Some (mkFifo 0 0 0 nullptr, addr_mem, RRange (Range nullptr 0)))
    as Hcall by (vm_compute; reflexivity).
  split; [|exact Hcall].
  apply (call_null_inv mWrite ForeignFifoBuffer_null addr_mem
           (mkFifo 0 0 0 nullptr) addr_mem (RRange (Range nullptr 0))).
  - split_and!; apply lp64_is_size; simpl; lia.
  - unfold cursor_inv. simpl. lia.
  - intros _. done.
  - exact I.
  - discriminate.
  - exact Hcall.
Defined.


(** C8, as stated, fails: a block with capacity zero trips the second
    assertion of [SetBuffer], although the handle is not null. *)
Lemma SetBuffer_zero_capacity_counterexample :
  ~ (SetBuffer 100 0 demo_view = None <-> 100 = nullptr /\ 0 <> 0).
Proof.
  intros [Hfails _].
  destruct (Hfails eq_refl) as [Hnull _]. discriminate.
Defined.

Lemma SetBuffer_rebinds_witness :
  exists b',
    SetBuffer 100 8 (mkFifo 2 4 16 50) = Some b' /\
    data b' = 100 /\ capacity b' = 8 /\
    head b' = 0 /\ tail b' = 0 /\ GetAvailable b' = 0.
Proof.
  apply (SetBuffer_rebinds 100 8 (mkFifo 2 4 16 50)).
  - apply lp64_is_size. lia.
  - discriminate.
  - discriminate.
Defined.

Lemma null_state_full_and_empty_witness :
  IsFull (SetNull demo_view) = true /\
  IsEmpty (SetNull demo_view) = true /\
  GetAvailable (SetNull demo_view) = 0.
Proof.
  apply (null_state_full_and_empty (SetNull demo_view)).
  apply null_after_SetNull.
Defined.

(** A view holding three elements, moved onto itself. *)
Example self_move_assign_demo :
  demo_objects 0%nat = mkFifo 1 4 8 100 /\
  move_assign 0 0 demo_objects 0%nat = mkFifo 0 0 0 nullptr.
Proof. split; reflexivity. Qed.

(** ** Witnesses of the further properties *)

Lemma demo_wf : wf (mkFifo 1 4 8 100) /\ cursor_inv (mkFifo 1 4 8 100).
Proof. vm_compute. intuition discriminate. Qed.

Lemma Read_n_copies_out_witness :
  exists b' m',
    Read_n 1000 5 (mkFifo 1 4 8 100) addr_mem = Some (b', m', 3) /\
    IsEmpty b' = true /\
    load_range m' 1000 3 = [101; 102; 103].
Proof.
  destruct (Read_n_copies_out 1000 5 (mkFifo 1 4 8 100) addr_mem)
    as (b' & m' & Heq & _ & _ & _ & _ & _ & Hempty & _ & Hout).
  - apply demo_wf.
  - apply demo_wf.
  - apply lp64_is_size. lia.
  - exists b', m'. split_and!.
    + exact Heq.
    + apply Hempty. vm_compute. discriminate.
    + destruct Hout as [Hcopy _]; [right; simpl; lia|]. exact Hcopy.
Defined.

Lemma queries_count_live_witness :
  Z.of_nat (length (contents addr_mem (Read (mkFifo 1 4 8 100)))) = 3 /\
  GetAvailable (mkFifo 1 4 8 100) <= 8.
Proof.
  destruct (queries_count_live (mkFifo 1 4 8 100) addr_mem)
    as (Hlen & _ & _ & _ & Hcap & _).
  - apply demo_wf.
  - apply demo_wf.
  - split; [exact Hlen|exact Hcap].
Defined.

Lemma Write_hands_out_free_space_witness :
  exists b' m' r,
    Write (mkFifo 1 4 8 100) handle_mem = Some (b', m', r) /\
    WritableBuffer.data r = 103 /\ WritableBuffer.size r = 5 /\
    m' 103 = None /\ m' 104 = Some 104 /\
    Write b' m' = Some (b', m', r).
Proof.
  destruct (Write_hands_out_free_space (mkFifo 1 4 8 100) handle_mem)
    as (b' & m' & r & Heq & _ & _ & _ & _ & Hdata & Hsize & _ & _
        & Hframe & Hvacated & Hagain).
  - apply demo_wf.
  - apply demo_wf.
  - exists b', m', r.
    split_and!; [exact Heq|exact Hdata|exact Hsize| | |exact Hagain].
    + apply (Hvacated 103); [simpl; lia|].
      vm_compute. intuition discriminate.
    + apply (Hframe 104); vm_compute; intuition discriminate.
Defined.

Lemma WantWrite_then_Write_witness :
  exists b1 m1 ok b2 m2 r,
    WantWrite 5 (mkFifo 1 4 8 100) addr_mem = Some (b1, m1, ok) /\
    Write b1 m1 = Some (b2, m2, r) /\
    Write (mkFifo 1 4 8 100) addr_mem = Some (b2, m2, r) /\
    (ok = true <-> 5 <= WritableBuffer.size r).
Proof.
  apply (WantWrite_then_Write 5 (mkFifo 1 4 8 100) addr_mem).
  - apply demo_wf.
  - apply demo_wf.
  - apply lp64_is_size. lia.
  - vm_compute. discriminate.
Defined.

Lemma Clear_resets_witness :
  Write (Clear (mkFifo 1 4 8 100)) addr_mem
    = Some (Clear (mkFifo 1 4 8 100), addr_mem, Range 100 8).
Proof.
  apply (Clear_resets (mkFifo 1 4 8 100) addr_mem).
  apply lp64_is_size. simpl. lia.
Defined.

Lemma Append_assertions_witness :
  Append 5 (mkFifo 1 4 8 100) = None /\
  Append 4 (mkFifo 1 4 8 100) = Some (mkFifo 1 8 8 100).
Proof.
  assert (is_size 5) as Hfail by (apply lp64_is_size; lia).
  assert (is_size 4) as Hok by (apply lp64_is_size; lia).
  destruct (Append_assertions 5 (mkFifo 1 4 8 100)
              (proj1 demo_wf) (proj2 demo_wf) Hfail) as (Hrefused & _ & _).
  destruct (Append_assertions 4 (mkFifo 1 4 8 100)
              (proj1 demo_wf) (proj2 demo_wf) Hok) as (_ & Hdone & _).
  split.
  - apply Hrefused. vm_compute. intuition discriminate.
  - apply Hdone. simpl. lia.
Defined.

Lemma Consume_assertions_witness :
  Consume 4 (mkFifo 1 4 8 100) = None /\
  Consume 3 (mkFifo 1 4 8 100) = Some (mkFifo 4 4 8 100).
Proof.
  assert (is_size 4) as Hfail by (apply lp64_is_size; lia).
  assert (is_size 3) as Hok by (apply lp64_is_size; lia).
  destruct (Consume_assertions 4 (mkFifo 1 4 8 100)
              (proj1 demo_wf) (proj2 demo_wf) Hfail) as (Hrefused & _ & _).
  destruct (Consume_assertions 3 (mkFifo 1 4 8 100)
              (proj1 demo_wf) (proj2 demo_wf) Hok) as (_ & Hdone & _).
  split.
  - apply Hrefused. vm_compute. intuition discriminate.
  - apply Hdone. simpl. lia.
Defined.

Lemma demo_probe_call :
  call (mWantWrite 5) (mkFifo 1 4 8 100) addr_mem
  = Some (mkFifo 0 3 8 100,
          std_move 101 104 100 addr_mem, RBool true).
Proof. vm_compute. reflexivity. Qed.

Lemma call_keeps_binding_witness :
  data (mkFifo 0 3 8 100) = data (mkFifo 1 4 8 100) /\
  capacity (mkFifo 0 3 8 100) = capacity (mkFifo 1 4 8 100).
Proof.
  exact (proj1 (call_keeps_binding (T := Z))
           (mWantWrite 5) (mkFifo 1 4 8 100) addr_mem
           (mkFifo 0 3 8 100) (std_move 101 104 100 addr_mem) (RBool true)
           eq_refl demo_probe_call).
Defined.

Lemma call_memory_frame_witness :
  std_move 101 104 100 addr_mem 104 = addr_mem 104.
Proof.
  apply (call_memory_frame (mWantWrite 5) (mkFifo 1 4 8 100) addr_mem
           (mkFifo 0 3 8 100) (std_move 101 104 100 addr_mem) (RBool true)
           104).
  - apply demo_wf.
  - apply demo_wf.
  - exact demo_probe_call.
  - simpl. lia.
Defined.

Lemma move_transfers_witness :
  move_assign 0 1 demo_pair 0%nat = mkFifo 1 4 8 100 /\
  move_assign 0 1 demo_pair 1%nat = mkFifo 0 0 0 nullptr.
Proof.
  destruct (move_transfers demo_pair 0 1 addr_mem) as (Hdst & Hsrc & _).
  - discriminate.
  - split; [exact Hdst|exact Hsrc].
Defined.

Lemma available_accounting_witness :
  exists b' m' seen,
    run demo_trace demo_view addr_mem None = Some (b', m', seen) /\
    GetAvailable b' =
      GetAvailable demo_view + Z.of_nat (length (written demo_trace))
                             - Z.of_nat (length seen).
Proof.
  destruct (available_accounting demo_view addr_mem demo_trace)
    as (b' & m' & seen & Hrun & Hcount & _).
  - vm_compute. intuition discriminate.
  - vm_compute. intuition discriminate.
  - exact demo_trace_ok.
  - by exists b', m', seen.
Defined.

Lemma commits_and_consumes_add_witness :
  Append 1 (mkFifo 1 4 8 100) ≫= Append 3 = Append 4 (mkFifo 1 4 8 100) /\
  Consume 1 (mkFifo 1 4 8 100) ≫= Consume 2 = Consume 3 (mkFifo 1 4 8 100).
Proof.
  destruct (commits_and_consumes_add 1 3 (mkFifo 1 4 8 100)
              (proj1 demo_wf) (proj2 demo_wf)) as [Happend _]; [lia|lia|].
  destruct (commits_and_consumes_add 1 2 (mkFifo 1 4 8 100)
              (proj1 demo_wf) (proj2 demo_wf)) as [_ Hconsume]; [lia|lia|].
  split.
  - apply Happend. simpl. lia.
  - apply Hconsume. simpl. lia.
Defined.

Lemma drain_then_write_witness :
  exists b1,
    Consume (GetAvailable (mkFifo 1 4 8 100)) (mkFifo 1 4 8 100) = Some b1 /\
    IsEmpty b1 = true /\
    Write b1 addr_mem = Some (mkFifo 0 0 8 100, addr_mem, Range 100 8).
Proof.
  apply (drain_then_write (mkFifo 1 4 8 100) addr_mem).
  - apply demo_wf.
  - apply demo_wf.
Defined.

Lemma MoveBuffer_then_Write_witness :
  exists b1 m1,
    MoveBuffer 200 16 (mkFifo 1 4 8 100) addr_mem = Some (b1, m1) /\
    Write b1 m1 =
      Some (b1, m1, Range (200 + GetAvailable (mkFifo 1 4 8 100))
                          (16 - GetAvailable (mkFifo 1 4 8 100))).
Proof.
  apply (MoveBuffer_then_Write 200 16 (mkFifo 1 4 8 100) addr_mem).
  - apply demo_wf.
  - apply demo_wf.
  - apply lp64_is_size. lia.
  - vm_compute. discriminate.
Defined.

Lemma null_view_is_inert_witness :
  exists b' m' r,
    call (mRead_n 1000 4) ForeignFifoBuffer_null addr_mem = Some (b', m', r) /\
    b' = ForeignFifoBuffer_null /\ m' = addr_mem /\ r = RSize 0.
Proof.
  destruct (call (mRead_n 1000 4) ForeignFifoBuffer_null addr_mem)
    as [[[b' m'] r]|] eqn:Hcall; [|vm_compute in Hcall; discriminate].
  destruct (proj1 (null_view_is_inert (T := Z))
              (mRead_n 1000 4) addr_mem b' m' r eq_refl Hcall)
    as (Hview & Hmem & _ & Hread & _).
  exists b', m', r. split_and!; [reflexivity|exact Hview|exact Hmem|].
  apply (Hread 1000 4 eq_refl). apply lp64_is_size. lia.
Defined.
